(** * The request-gatekeeping layer of the due-diligence platform

    A shallow embedding of [src/security.py]: the input sanitizer
    ([SecurityManager.validate_input]), the ticker-symbol validator
    ([validate_symbol]), the suspicious-pattern scan
    ([check_suspicious_activity]), the sliding-window rate limiter
    ([rate_limit]) and the field-validation decorator
    ([require_valid_input]), together with the properties the specification
    states about them.

    Conventions of the embedding.
    - A Python [str] is a list of Unicode code points ([pystr]).
    - [time.time()] is an integer clock reading in seconds; the limiter only
      subtracts and compares timestamps.
    - [rate_limit_storage] (a [defaultdict(list)]) is a [gmap] from the
      client address to its list of timestamps, [blocked_ips] a [gset].
    - The regular expressions of the source are written in a small abstract
      syntax and run by a matcher that follows Python's [re] semantics for
      the constructs the source uses.
    - The data [require_valid_input] reads is the parsed JSON body, a value
      of any shape, or the form; an exception that leaves the decorated
      function is a result of its own. *)

From Stdlib Require Import ZArith NArith List Ascii String Bool Lia Sorted.
From Stdlib Require Import Floats DecimalString.
From stdpp Require Import gmap strings list.

Local Open Scope Z_scope.

(** ** Python strings *)

Module PyStr.

(** A code point. *)
Definition char : Type := N.

Definition pystr : Type := list char.

(** The code points of an ASCII literal of the source. *)
Definition lit (s : string) : pystr :=
  List.map N_of_ascii (list_ascii_of_string s).

Definition in_range (lo hi c : char) : bool := ((lo <=? c) && (c <=? hi))%N.
Arguments in_range (lo hi c)%_N_scope.

Fixpoint one_of (cs : list char) (c : char) : bool :=
  match cs with
  | [] => false
  | x :: cs' => (c =? x)%N || one_of cs' c
  end.

Arguments one_of cs%_list_scope c%_N_scope.

(** [str.isspace] for one character, which is also the class [\s] of a
    [str] pattern: the white-space table of CPython's Unicode database. *)
Definition isspace (c : char) : bool :=
  in_range 9 13 c || in_range 28 32 c || one_of [133; 160; 5760]%N c
  || in_range 8192 8202 c || one_of [8232; 8233; 8239; 8287; 12288]%N c.

(** [len(s)] as a Python integer. *)
Definition len (s : pystr) : Z := Z.of_nat (length s).

(** [s[:n]]: a negative bound counts from the end. *)
Definition slice_to (s : pystr) (n : Z) : pystr :=
  if 0 <=? n then firstn (Z.to_nat n) s
  else firstn (length s - Z.to_nat (- n))%nat s.

Fixpoint lstrip (s : pystr) : pystr :=
  match s with
  | [] => []
  | c :: s' => if isspace c then lstrip s' else s
  end.

Definition rstrip (s : pystr) : pystr := rev (lstrip (rev s)).

(** [s.strip()] *)
Definition strip (s : pystr) : pystr := rstrip (lstrip s).

(** [re.sub(r'[...]', '', s)] for a pattern that is one character class:
    every character of the class is deleted. *)
Fixpoint sub_class (cls : char -> bool) (s : pystr) : pystr :=
  match s with
  | [] => []
  | c :: s' => if cls c then sub_class cls s' else c :: sub_class cls s'
  end.

(** [needle in s] *)
Fixpoint starts_with (needle s : pystr) : bool :=
  match needle, s with
  | [], _ => true
  | _ :: _, [] => false
  | a :: needle', b :: s' => (a =? b)%N && starts_with needle' s'
  end.

Fixpoint contains (needle s : pystr) : bool :=
  starts_with needle s ||
  match s with
  | [] => false
  | _ :: s' => contains needle s'
  end.

End PyStr.

Import PyStr.

(** ** SecurityManager.validate_input *)

(** [[\x00-\x08\x0B\x0C\x0E-\x1F\x7F]] *)
Definition control_class (c : char) : bool :=
  in_range 0 8 c || one_of [11; 12]%N c || in_range 14 31 c || one_of [127]%N c.

(** The class of the second [re.sub]: less-than, greater-than, double quote,
    single quote, semicolon, the two parentheses, ampersand and plus, in the
    order of the source. *)
Definition special_chars : list char := [60; 62; 34; 39; 59; 40; 41; 38; 43]%N.

Definition special_class (c : char) : bool := one_of special_chars c.

(** The argument is [None] or a [str]; [not input_string] holds for [None]
    and for the empty string. *)
Definition validate_input (input_string : option pystr) (max_length : Z)
    (allow_special_chars : bool) : pystr :=
  match input_string with
  | None | Some [] => []
  | Some s =>
      let cleaned := sub_class control_class s in
      let cleaned :=
        if len cleaned >? max_length then slice_to cleaned max_length
        else cleaned in
      let cleaned :=
        if negb allow_special_chars then sub_class special_class cleaned
        else cleaned in
      strip cleaned
  end.

(** ** Regular expressions

    The patterns of the source are sequences of literals, character
    classes, repeated classes ([X*], [X+], [X{m,n}]) and the anchors [^]
    and [$]. *)

Module Re.

Inductive atom : Type :=
  | Lit (c : char)                                    (* one literal character *)
  | Set_ (cls : char -> bool)                         (* [...], \w, \s *)
  | Rep (cls : char -> bool) (lo : nat) (hi : option nat)
                                                      (* X{lo,hi}; [None] is unbounded *)
  | Bol                                               (* ^ *)
  | Eol.                                              (* $ *)

Definition regex : Type := list atom.

(** Literal text as a pattern. *)
Definition text (s : string) : regex := List.map Lit (lit s).

(** Without [re.MULTILINE], [$] matches at the end of the string and just
    before a newline that is the last character of the string. *)
Definition at_eol (s : pystr) : bool :=
  match s with
  | [] => true
  | [c] => (c =? 10)%N
  | _ => false
  end.

(** [rep cls k lo hi bol s]: some number [n] of leading characters of [s],
    [lo <= n <= hi], all in [cls], can be consumed so that the rest of the
    pattern, [k], matches what follows. [bol] tells whether the current
    position is the start of the string. *)
Fixpoint rep (cls : char -> bool) (k : bool -> pystr -> bool)
    (lo : nat) (hi : option nat) (bol : bool) (s : pystr) {struct s} : bool :=
  (Nat.eqb lo 0 && k bol s) ||
  match hi, s with
  | Some O, _ => false
  | _, [] => false
  | _, c :: s' => cls c && rep cls k (Nat.pred lo) (option_map Nat.pred hi) false s'
  end.

(** The pattern matches a prefix of [s] at the current position. *)
Fixpoint match_here (r : regex) (bol : bool) (s : pystr) {struct r} : bool :=
  match r with
  | [] => true
  | Lit c :: r' =>
      match s with
      | x :: s' => (x =? c)%N && match_here r' false s'
      | [] => false
      end
  | Set_ cls :: r' =>
      match s with
      | x :: s' => cls x && match_here r' false s'
      | [] => false
      end
  | Rep cls lo hi :: r' => rep cls (match_here r') lo hi bol s
  | Bol :: r' => bol && match_here r' bol s
  | Eol :: r' => at_eol s && match_here r' bol s
  end.

(** [bool(re.match(r, s))]: a match at position 0. *)
Definition re_match (r : regex) (s : pystr) : bool := match_here r true s.

Fixpoint search_from (r : regex) (bol : bool) (s : pystr) : bool :=
  match_here r bol s ||
  match s with
  | [] => false
  | _ :: s' => search_from r false s'
  end.

(** [bool(re.search(r, s))]: a match at some position. *)
Definition re_search (r : regex) (s : pystr) : bool := search_from r true s.

(** A count allowed by the upper bound of a repetition. *)
Definition within (hi : option nat) (n : nat) : Prop :=
  match hi with
  | Some h => (n <= h)%nat
  | None => True
  end.

(** Whether the position after consuming [pre] is still the start of the
    string. *)
Definition still_bol (bol : bool) (pre : pystr) : bool :=
  match pre with
  | [] => bol
  | _ :: _ => false
  end.

End Re.

Import Re.

(** ** SecurityManager.validate_symbol *)

(** [[A-Za-z0-9]] *)
Definition alnum_class (c : char) : bool :=
  in_range 65 90 c || in_range 97 122 c || in_range 48 57 c.

(** [r'^[A-Za-z0-9]{1,10}$'] *)
Definition symbol_pattern : regex := [Bol; Rep alnum_class 1 (Some 10%nat); Eol].

Definition validate_symbol (symbol : option pystr) : bool :=
  match symbol with
  | None | Some [] => false
  | Some s => re_match symbol_pattern s
  end.

(** ** SecurityManager.check_suspicious_activity and require_valid_input

    [str.lower] and the class [\w] of a [str] pattern (the alphanumeric
    characters of the Unicode database and the underscore) are tables of the
    Python runtime; they are parameters of this part. *)

(** A pattern of the list with the text the source gives for it. *)
Record pattern : Type := Pattern { pat_src : string; pat_re : regex }.

(** The pair the scan returns for a pattern that matched. *)
Definition report (p : pattern) : bool * pystr :=
  (true, lit "Suspicious pattern detected: " ++ lit (pat_src p)).

(** JSON bodies of the replies the decorators build with [jsonify]. *)
Inductive json : Type :=
  | JStr (s : pystr)
  | JNum (n : Z).

Definition body : Type := list (string * json).

(** What a decorated view function does: it answers itself, or it calls the
    wrapped function. *)
Inductive outcome (R : Type) : Type :=
  | Reply (b : body) (status : Z)
  | Call (r : R).
Arguments Reply {R} b status.
Arguments Call {R} r.

(** The part of flask's [request] that [validate_symbol_input] reads when
    the URL rule has no symbol. Field values are strings. *)
Record flask_request : Type := FlaskRequest {
  is_json : bool;
  json_data : gmap string pystr;
  form : gmap string pystr
}.

(** An entry printed by [log_security_event]. *)
Record security_event : Type := SecurityEvent {
  event_type : string;
  details : pystr
}.

Section Scan.

Variable lower : pystr -> pystr.
Variable word_class : char -> bool.

Definition suspicious_patterns : list pattern :=
  [ Pattern "<script" (text "<script");
    Pattern "javascript:" (text "javascript:");
    Pattern "on\w+\s*="
      (text "on" ++ [Rep word_class 1 None; Rep isspace 0 None] ++ text "=");
    Pattern "eval\s*\(" (text "eval" ++ [Rep isspace 0 None] ++ text "(");
    Pattern "document\." (text "document.");
    Pattern "window\." (text "window.");
    Pattern "\.\./" (text "../");
    Pattern "union\s+select" (text "union" ++ [Rep isspace 1 None] ++ text "select");
    Pattern "drop\s+table" (text "drop" ++ [Rep isspace 1 None] ++ text "table");
    Pattern "insert\s+into" (text "insert" ++ [Rep isspace 1 None] ++ text "into");
    Pattern "delete\s+from" (text "delete" ++ [Rep isspace 1 None] ++ text "from") ].

(** The [for] loop over the patterns, returning at the first match. *)
Fixpoint scan_patterns (ps : list pattern) (user_input_lower : pystr)
    : bool * pystr :=
  match ps with
  | [] => (false, lit "Clean")
  | p :: ps' =>
      if re_search (pat_re p) user_input_lower
      then (true, lit "Suspicious pattern detected: " ++ lit (pat_src p))
      else scan_patterns ps' user_input_lower
  end.

Definition check_suspicious_activity (user_input : pystr) : bool * pystr :=
  let user_input_lower := lower user_input in
  scan_patterns suspicious_patterns user_input_lower.

(** [data = request.get_json() if request.is_json else request.form] *)
Definition request_data (req : flask_request) : gmap string pystr :=
  if is_json req then json_data req else form req.

End Scan.

(** ** require_valid_input *)

(** A value as [json.loads] builds it: [None], a [bool], an [int], a
    [float], a [str], a [list], or a [dict] with string keys. *)
#[local] Unset Elimination Schemes.
Inductive jvalue : Type :=
  | JNull
  | JBool (b : bool)
  | JInt (n : Z)
  | JFloat (x : float)
  | JString (s : pystr)
  | JArray (l : list jvalue)
  | JObject (m : gmap string jvalue).
#[local] Set Elimination Schemes.

(** [bool(v)] *)
Definition truthy (v : jvalue) : bool :=
  match v with
  | JNull => false
  | JBool b => b
  | JInt n => negb (n =? 0)
  | JFloat x => negb (PrimFloat.eqb x 0%float)
  | JString s => negb (Nat.eqb (length s) 0)
  | JArray l => negb (Nat.eqb (length l) 0)
  | JObject m => negb (Nat.eqb (size m) 0)
  end.

(** [v == t] for a string [t] *)
Definition equals_str (t : pystr) (v : jvalue) : bool :=
  match v with
  | JString s => bool_decide (s = t)
  | _ => false
  end.

(** The exceptions that leave the decorated function. *)
Inductive exception : Type :=
  | TypeError
  | BadRequest.

Inductive result (A : Type) : Type :=
  | Returned (a : A)
  | Raised (e : exception).
Arguments Returned {A} a.
Arguments Raised {A} e.

(** What the decorator takes as [data]: the value of [request.get_json()]
    when [request.is_json] (a body that does not parse makes [get_json]
    raise [BadRequest]), else [request.form], whose values are strings. *)
Inductive request_body : Type :=
  | JsonBody (data : jvalue)
  | MalformedJson
  | FormBody (form : gmap string pystr).

Section FieldGate.

Variable lower : pystr -> pystr.
Variable word_class : char -> bool.

(** [str(v)] for a value that is not a string: a function of the Python
    runtime, like the two tables. *)
Variable py_str : jvalue -> pystr.

(** [str(value)] *)
Definition to_str (value : jvalue) : pystr :=
  match value with
  | JString s => s
  | _ => py_str value
  end.

(** [security_manager.validate_input(value, max_length, allow_special_chars)]
    for any value: [not input_string], then [str(input_string)]. *)
Definition validate_input_value (value : jvalue) (max_length : Z)
    (allow_special_chars : bool) : pystr :=
  if truthy value
  then validate_input (Some (to_str value)) max_length allow_special_chars
  else [].

Definition missing_field {R : Type} (field_name : string)
    : list security_event * outcome R :=
  ([], Reply [("error", JStr (lit "Missing required field: " ++ lit field_name))] 400).

(** The statements after [value = data[field_name]]; [call] is the wrapped
    function on the request with the cleaned value stored. *)
Definition check_and_clean {R : Type} (field_name : string) (max_length : Z)
    (allow_special_chars : bool) (value : jvalue) (call : pystr -> R)
    : list security_event * outcome R :=
  let '(is_suspicious, reason) :=
    check_suspicious_activity lower word_class (to_str value) in
  if is_suspicious then
    ([SecurityEvent "SUSPICIOUS_INPUT"
        (lit "Field: " ++ lit field_name ++ lit ", Reason: " ++ reason
         ++ lit ", Value: " ++ slice_to (to_str value) 100)],
     Reply [("error", JStr (lit "Invalid input detected"))] 400)
  else
    let cleaned_value := validate_input_value value max_length allow_special_chars in
    ([], Call (call cleaned_value)).

(** The decorated function of [require_valid_input(field_name, max_length,
    allow_special_chars)(f)]. [field_name not in data] is a key test on a
    [dict] or the form, a membership test on a [list], a substring test on a
    [str], and raises [TypeError] on [None], a [bool] and a number;
    [data[field_name]] raises [TypeError] on a [list] and on a [str]. The
    wrapped function [f] reads the request, in which the field has been
    overwritten. *)
Definition require_valid_input {R : Type} (field_name : string) (max_length : Z)
    (allow_special_chars : bool) (f : request_body -> R) (req : request_body)
    : result (list security_event * outcome R) :=
  match req with
  | MalformedJson => Raised BadRequest
  | FormBody form =>
      match form !! field_name with
      | None => Returned (missing_field field_name)
      | Some value =>
          Returned
            (check_and_clean field_name max_length allow_special_chars (JString value)
               (fun cleaned_value =>
                  f (FormBody (<[field_name := cleaned_value]> form))))
      end
  | JsonBody (JObject m) =>
      match m !! field_name with
      | None => Returned (missing_field field_name)
      | Some value =>
          Returned
            (check_and_clean field_name max_length allow_special_chars value
               (fun cleaned_value =>
                  f (JsonBody (JObject (<[field_name := JString cleaned_value]> m)))))
      end
  | JsonBody (JArray l) =>
      if existsb (equals_str (lit field_name)) l then Raised TypeError
      else Returned (missing_field field_name)
  | JsonBody (JString s) =>
      if contains (lit field_name) s then Raised TypeError
      else Returned (missing_field field_name)
  | JsonBody (JNull | JBool _ | JInt _ | JFloat _) => Raised TypeError
  end.

End FieldGate.

(** The value a form or a JSON object holds for a field, and the body with
    a field overwritten by a string. *)
Definition field_value (req : request_body) (field_name : string) : option jvalue :=
  match req with
  | FormBody form => JString <$> form !! field_name
  | JsonBody (JObject m) => m !! field_name
  | _ => None
  end.



(** The two tables on ASCII text, where [str.lower] maps [A-Z] to [a-z]
    and [\w] is [[A-Za-z0-9_]]. *)
Module AsciiTables.

Definition lower_char (c : char) : char :=
  if in_range 65 90 c then (c + 32)%N else c.

Definition lower (s : pystr) : pystr := List.map lower_char s.

Definition word_class (c : char) : bool := alnum_class c || one_of [95]%N c.

(** The scan of an ASCII literal. *)
Definition scan (s : string) : bool * pystr :=
  check_suspicious_activity lower word_class (lit s).

(** [str] of [None], of the booleans and of the integers; the examples
    pass no other value that is not a string. *)
Definition py_str (v : jvalue) : pystr :=
  match v with
  | JNull => lit "None"
  | JBool true => lit "True"
  | JBool false => lit "False"
  | JInt n => lit (NilZero.string_of_int (Z.to_int n))
  | _ => []
  end.

(** A JSON request with one string field. *)
Definition json_request (field_name value : string) : request_body :=
  JsonBody (JObject {[ field_name := JString (lit value) ]}).

(** A wrapped function that returns the field it reads. *)
Definition read_query (req : request_body) : option jvalue :=
  field_value req "query".

End AsciiTables.

(** ** SecurityManager.rate_limit *)

Module Limiter.

(** The two attributes [__init__] creates. *)
Record state : Type := State {
  rate_limit_storage : gmap string (list Z);
  blocked_ips : gset string
}.

(** [SecurityManager()] *)
Definition init : state := State ∅ ∅.

(** [self.rate_limit_storage[client_ip]] read from a [defaultdict(list)]. *)
Definition storage_get (st : state) (client_ip : string) : list Z :=
  default [] (rate_limit_storage st !! client_ip).

(** [[req_time for req_time in log if req_time > window_start]] *)
Fixpoint recent (window_start : Z) (log : list Z) : list Z :=
  match log with
  | [] => []
  | req_time :: log' =>
      if req_time >? window_start then req_time :: recent window_start log'
      else recent window_start log'
  end.

(** The statement under [# Clean old requests]. *)
Definition clean_old_requests (client_ip : string) (window_start : Z)
    (st : state) : state :=
  State (<[client_ip := recent window_start (storage_get st client_ip)]>
           (rate_limit_storage st))
        (blocked_ips st).

Definition block_ip (client_ip : string) (st : state) : state :=
  State (rate_limit_storage st) ({[client_ip]} ∪ blocked_ips st).

Definition add_request (client_ip : string) (current_time : Z) (st : state) : state :=
  State (<[client_ip := storage_get st client_ip ++ [current_time]]>
           (rate_limit_storage st))
        (blocked_ips st).

Definition blocked_reply : outcome unit :=
  Reply [("error", JStr (lit "IP blocked due to abuse"))] 429.

Definition limit_reply (window_minutes : Z) : outcome unit :=
  Reply [("error", JStr (lit "Rate limit exceeded"));
         ("retry_after", JNum (window_minutes * 60))] 429.

(** The decorated function of [rate_limit(max_requests, window_minutes)(f)]
    for a request of [client_ip] arriving at [current_time]: the new state
    and either the 429 reply or [Call tt], the call of [f]. *)
Definition rate_limit (max_requests window_minutes : Z) (client_ip : string)
    (current_time : Z) (st : state) : state * outcome unit :=
  if decide (client_ip ∈ blocked_ips st) then (st, blocked_reply)
  else
    let window_start := current_time - window_minutes * 60 in
    let st := clean_old_requests client_ip window_start st in
    if Z.of_nat (length (storage_get st client_ip)) >=? max_requests then
      let st :=
        if Z.of_nat (length (storage_get st client_ip)) >? max_requests * 2
        then block_ip client_ip st else st in
      (st, limit_reply window_minutes)
    else (add_request client_ip current_time st, Call tt).

(** One request as the limiter sees it: the policy of the endpoint it is
    for, the client and the arrival time. *)
Record hit : Type := Hit {
  hit_max_requests : Z;
  hit_window_minutes : Z;
  hit_client : string;
  hit_time : Z
}.

Definition serve (h : hit) (st : state) : state * outcome unit :=
  rate_limit (hit_max_requests h) (hit_window_minutes h) (hit_client h) (hit_time h) st.

(** Requests served one after the other; the replies in order. *)
Fixpoint serve_all (hs : list hit) (st : state) : state * list (outcome unit) :=
  match hs with
  | [] => (st, [])
  | h :: hs' =>
      let '(st1, o) := serve h st in
      let '(st2, os) := serve_all hs' st1 in
      (st2, o :: os)
  end.

(** The [retry_after] entry of a reply, if any. *)
Definition retry_after (o : outcome unit) : option json :=
  match o with
  | Reply b _ => snd <$> List.find (fun kv => String.eqb (fst kv) "retry_after") b
  | Call _ => None
  end.

Definition rejected (o : outcome unit) : bool :=
  match o with
  | Reply _ status => status =? 429
  | Call _ => false
  end.

(** Policies of two endpoints of [routes/due_diligence.py]:
    [/company-profile/<symbol>] and [/analyze-company]. *)
Definition company_profile_hit (client_ip : string) (t : Z) : hit := Hit 30 1 client_ip t.
Definition analyze_company_hit (client_ip : string) (t : Z) : hit := Hit 5 1 client_ip t.

End Limiter.

(** ** The sanitizer as the specification words it

    The processing order of the specification, with the list of characters
    to delete as a parameter. *)

Module Reference.

(** 0x00-0x08, 0x0B, 0x0C, 0x0E-0x1F, 0x7F *)
Definition is_control (c : char) : bool :=
  ((c <=? 8) || (c =? 11) || (c =? 12) || ((14 <=? c) && (c <=? 31)) || (c =? 127))%N.

(** Less-than, greater-than, double quote, single quote, the two
    parentheses, ampersand and plus. *)
Definition denylist : list char := [60; 62; 34; 39; 40; 41; 38; 43]%N.

Definition remove (p : char -> bool) (s : pystr) : pystr :=
  List.filter (fun c => negb (p c)) s.

Definition sanitize (deny : list char) (raw : option pystr) (max_length : Z)
    (allow_special_chars : bool) : pystr :=
  match raw with
  | None => []
  | Some s =>
      let a := remove is_control s in
      let b := firstn (Z.to_nat max_length) a in
      let c := if allow_special_chars then b
               else remove (fun x => bool_decide (x ∈ deny)) b in
      strip c
  end.

End Reference.

(** ** SecurityManager.validate_api_key *)

Definition configure_message (service_name : string) : pystr :=
  lit "Please configure a valid " ++ lit service_name ++ lit " API key".

Definition format_message (service_name : string) : pystr :=
  lit "Invalid " ++ lit service_name ++ lit " API key format".

(** The key is what [os.getenv] returned: [None] or a string. *)
Definition validate_api_key (api_key : option pystr) (service_name : string)
    : bool * pystr :=
  match api_key with
  | None | Some [] => (false, configure_message service_name)
  | Some k =>
      if starts_with (lit "your_") k then (false, configure_message service_name)
      else if len k <? 10 then (false, format_message service_name)
      else (true, lit "Valid")
  end.

(** ** validate_symbol_input *)

(** The decorated function of [validate_symbol_input(f)]: [kwargs] holds the
    variables of the URL rule; the wrapped function receives them
    unchanged. *)
Definition validate_symbol_input {R : Type}
    (f : gmap string pystr -> flask_request -> R)
    (kwargs : gmap string pystr) (req : flask_request)
    : list security_event * outcome R :=
  let symbol :=
    match kwargs !! "symbol" with
    | Some symbol => symbol
    | None =>
        let data := if is_json req then json_data req else form req in
        default [] (data !! "symbol")
    end in
  if negb (validate_symbol (Some symbol)) then
    ([SecurityEvent "INVALID_SYMBOL" (lit "Invalid symbol format: " ++ symbol)],
     Reply [("error", JStr (lit "Invalid symbol format"))] 400)
  else ([], Call (f kwargs req)).

(** ** The view functions of routes/due_diligence.py *)

Module Views.

Import Limiter.

(** [request.environ.get('HTTP_X_FORWARDED_FOR', request.remote_addr)] *)
Definition client_ip (forwarded_for : option string) (remote_addr : string)
    : string :=
  default remote_addr forwarded_for.

(** [rate_limit(max_requests, window_minutes)(g)] for a request with the
    given header and socket address, where [inner] is what the wrapped
    function [g] does when it is called. *)
Definition limited {R : Type} (max_requests window_minutes : Z)
    (forwarded_for : option string) (remote_addr : string) (current_time : Z)
    (inner : list security_event * outcome R) (st : state)
    : state * (list security_event * outcome R) :=
  let '(st', o) :=
    rate_limit max_requests window_minutes
      (client_ip forwarded_for remote_addr) current_time st in
  (st', match o with
        | Reply b status => ([], Reply b status)
        | Call _ => inner
        end).

(** The decorators of [get_company_profile], below [cross_origin]. *)
Definition get_company_profile_view {R : Type}
    (f : gmap string pystr -> flask_request -> R)
    (forwarded_for : option string) (remote_addr : string) (current_time : Z)
    (kwargs : gmap string pystr) (req : flask_request) (st : state)
    : state * (list security_event * outcome R) :=
  limited 30 1 forwarded_for remote_addr current_time
    (validate_symbol_input f kwargs req) st.

(** The decorators of [search_company], below [cross_origin]. *)
Definition search_company_view {R : Type} (lower : pystr -> pystr)
    (word_class : char -> bool) (py_str : jvalue -> pystr) (f : request_body -> R)
    (forwarded_for : option string) (remote_addr : string) (current_time : Z)
    (req : request_body) (st : state)
    : state * result (list security_event * outcome R) :=
  let '(st', o) :=
    rate_limit 20 1 (client_ip forwarded_for remote_addr) current_time st in
  (st', match o with
        | Reply b status => Returned ([], Reply b status)
        | Call _ =>
            require_valid_input lower word_class py_str "query" 100 false f req
        end).

(** A company of the upstream answer: a JSON object whose members are
    strings or null. *)
Definition company : Type := gmap string (option pystr).

(** [company.get(key, '')] *)
Definition company_get (c : company) (key : string) : option pystr :=
  default (Some []) (c !! key).

Record safe_company : Type := SafeCompany {
  sc_symbol : pystr;
  sc_name : pystr;
  sc_currency : pystr;
  sc_stockExchange : pystr;
  sc_exchangeShortName : pystr
}.

(** The dictionary built in the loop of [search_company]. *)
Definition make_safe_company (c : company) : safe_company :=
  {| sc_symbol := validate_input (company_get c "symbol") 10 false;
     sc_name := validate_input (company_get c "name") 200 true;
     sc_currency := validate_input (company_get c "currency") 10 false;
     sc_stockExchange := validate_input (company_get c "stockExchange") 50 true;
     sc_exchangeShortName :=
       validate_input (company_get c "exchangeShortName") 20 false |}.

(** [for company in ...: safe_companies.append(safe_company)] *)
Fixpoint append_safe (companies : list company) (safe_companies : list safe_company)
    : list safe_company :=
  match companies with
  | [] => safe_companies
  | c :: companies' => append_safe companies' (safe_companies ++ [make_safe_company c])
  end.

(** The list returned under the key [companies]; the loop runs over
    [companies[:10]]. *)
Definition safe_companies (companies : list company) : list safe_company :=
  append_safe (firstn 10 companies) [].

End Views.

(** ** The signatures as the specification words them

    What it means for each signature of the list to be present in a
    lower-cased text, stated on the text itself. *)

Module Signature.

(** The text [t] occurs in [l]. *)
Definition occurs (t l : pystr) : Prop :=
  exists pre post, l = pre ++ t ++ post.

(** [a] occurs in [l], followed by white space, at least [gap] characters of
    it, and then by [b]. *)
Definition occurs_spaced (a b : pystr) (gap : nat) (l : pystr) : Prop :=
  exists pre sp post,
    l = pre ++ a ++ sp ++ b ++ post /\
    forallb isspace sp = true /\ (gap <= length sp)%nat.

(** An event-handler attribute occurs in [l]: [on], one or more word
    characters, white space if any, and the equals sign. *)
Definition occurs_handler (word_class : char -> bool) (l : pystr) : Prop :=
  exists pre w sp post,
    l = pre ++ lit "on" ++ w ++ sp ++ lit "=" ++ post /\
    w <> [] /\ forallb word_class w = true /\ forallb isspace sp = true.

(** The eleven signatures in their order of priority, each with the text
    the scan reports for it. *)
Definition signatures (word_class : char -> bool)
    : list (string * (pystr -> Prop)) :=
  [ ("<script", occurs (lit "<script"));
    ("javascript:", occurs (lit "javascript:"));
    ("on\w+\s*=", occurs_handler word_class);
    ("eval\s*\(", occurs_spaced (lit "eval") (lit "(") 0);
    ("document\.", occurs (lit "document."));
    ("window\.", occurs (lit "window."));
    ("\.\./", occurs (lit "../"));
    ("union\s+select", occurs_spaced (lit "union") (lit "select") 1);
    ("drop\s+table", occurs_spaced (lit "drop") (lit "table") 1);
    ("insert\s+into", occurs_spaced (lit "insert") (lit "into") 1);
    ("delete\s+from", occurs_spaced (lit "delete") (lit "from") 1) ].

End Signature.

(** ** Notions used by the statements below *)

(** A pattern without [^] and [$]. *)
Definition anchor_free (r : regex) : bool :=
  forallb (fun a => match a with Bol | Eol => false | _ => true end) r.

(** Every log of the state is in non-decreasing order and holds no timestamp
    later than [now]. *)
Definition logs_ordered (now : Z) (st : Limiter.state) : Prop :=
  forall c, StronglySorted Z.le (Limiter.storage_get st c) /\
            Forall (fun e => e <= now) (Limiter.storage_get st c).

(** The number of logged requests of a client inside the window of a call
    at [current_time]. *)
Definition in_window (st : Limiter.state) (client_ip : string)
    (current_time window_minutes : Z) : Z :=
  Z.of_nat (length (Limiter.recent (current_time - window_minutes * 60)
                      (Limiter.storage_get st client_ip))).

(** The arrival times of the requests that were admitted, given the
    replies in order. *)
Fixpoint admitted (ts : list Z) (os : list (outcome unit)) : list Z :=
  match ts, os with
  | t :: ts', o :: os' =>
      match o with
      | Call _ => t :: admitted ts' os'
      | Reply _ _ => admitted ts' os'
      end
  | _, _ => []
  end.

(** How many of the timestamps [A] lie in the window from [lo] (excluded) to
    [hi] (included). *)
Definition count_in (lo hi : Z) (A : list Z) : nat :=
  length (List.filter (fun b => (lo <? b) && (b <=? hi)) A).

(** What the limiter maintains for one client under one policy when times do
    not decrease: [A] are the admitted timestamps so far and [T] the time of
    the last request. *)
Definition window_invariant (m w : Z) (c : string) (st : Limiter.state)
    (A : list Z) (T : Z) : Prop :=
  (c ∉ Limiter.blocked_ips st) /\
  Z.of_nat (length (Limiter.storage_get st c)) <= m /\
  (forall ws, T - w * 60 <= ws ->
     Limiter.recent ws (Limiter.storage_get st c) = Limiter.recent ws A) /\
  Forall (fun a => a <= T) A /\
  (forall a, In a A -> Z.of_nat (count_in (a - w * 60) a A) <= m).

(** A sanitized field: no control character, no white space at either end. *)
Definition tidy (s : pystr) : Prop :=
  (forall c, In c s -> control_class c = false) /\ strip s = s.

(** * Properties *)

(** ** Python strings *)

Section PyStrFacts.

Implicit Types (s : pystr) (c : char) (cls : char -> bool).

Lemma one_of_In cs c : one_of cs c = true <-> In c cs.
Proof.
  induction cs as [|x cs IH]; simpl.
  - split; [discriminate | tauto].
  - rewrite orb_true_iff, IH, N.eqb_eq. split; intros [H|H]; auto.
Qed.

Lemma sub_class_length cls s : (length (sub_class cls s) <= length s)%nat.
Proof.
  induction s as [|c s IH]; simpl; [lia|].
  destruct (cls c); simpl; lia.
Qed.

Lemma sub_class_In cls s c :
  In c (sub_class cls s) <-> In c s /\ cls c = false.
Proof.
  induction s as [|x s IH]; simpl; [tauto|].
  destruct (cls x) eqn:E; simpl; rewrite IH; split.
  - intros [? ?]; auto.
  - intros [[->|?] ?]; [congruence | auto].
  - intros [->|[? ?]]; auto.
  - intros [[->|?] ?]; auto.
Qed.

Lemma sub_class_filter cls s :
  sub_class cls s = List.filter (fun c => negb (cls c)) s.
Proof.
  induction s as [|c s IH]; simpl; [reflexivity|].
  destruct (cls c); simpl; congruence.
Qed.

Lemma lstrip_suffix s : exists pre, s = pre ++ lstrip s.
Proof.
  induction s as [|c s [pre IH]]; simpl.
  - exists []. reflexivity.
  - destruct (isspace c).
    + exists (c :: pre). simpl. congruence.
    + exists []. reflexivity.
Qed.

Lemma rstrip_prefix s : exists post, s = rstrip s ++ post.
Proof.
  unfold rstrip. destruct (lstrip_suffix (rev s)) as [pre H].
  exists (rev pre).
  rewrite <- rev_app_distr, <- H, rev_involutive. reflexivity.
Qed.

Lemma strip_infix s : exists pre post, s = pre ++ strip s ++ post.
Proof.
  unfold strip. destruct (lstrip_suffix s) as [pre H].
  destruct (rstrip_prefix (lstrip s)) as [post H'].
  exists pre, post. rewrite <- H'. exact H.
Qed.

Lemma strip_length s : (length (strip s) <= length s)%nat.
Proof.
  destruct (strip_infix s) as (pre & post & H).
  rewrite H at 2. rewrite !length_app. lia.
Qed.

Lemma strip_In s c : In c (strip s) -> In c s.
Proof.
  destruct (strip_infix s) as (pre & post & H). intros Hc.
  rewrite H. apply in_or_app. right. apply in_or_app. left. exact Hc.
Qed.

Lemma slice_to_nonneg s n : 0 <= n -> slice_to s n = firstn (Z.to_nat n) s.
Proof.
  intros Hn. unfold slice_to.
  destruct (0 <=? n) eqn:E; [reflexivity|]. apply Z.leb_gt in E. lia.
Qed.

(** The [if len(cleaned) > max_length] statement is a plain truncation
    when the bound is not negative. *)
Lemma limit_length_firstn s n :
  0 <= n ->
  (if len s >? n then slice_to s n else s) = firstn (Z.to_nat n) s.
Proof.
  intros Hn. unfold len.
  destruct (Z.of_nat (length s) >? n) eqn:E.
  - apply slice_to_nonneg, Hn.
  - symmetry. apply firstn_all2.
    rewrite Z.gtb_ltb in E. apply Z.ltb_ge in E. lia.
Qed.

End PyStrFacts.

(** ** The sanitizer *)

Section Sanitizer.

Implicit Types (s : pystr) (c : char) (n : Z).

Lemma control_class_spec c : control_class c = Reference.is_control c.
Proof.
  unfold control_class, Reference.is_control, in_range. simpl.
  replace (0 <=? c)%N with true by (symmetry; apply N.leb_le; lia).
  simpl. rewrite !orb_false_r, <- !orb_assoc. reflexivity.
Qed.

Lemma special_class_spec c :
  special_class c = bool_decide (c ∈ special_chars).
Proof.
  unfold special_class.
  destruct (one_of special_chars c) eqn:E; symmetry.
  - apply bool_decide_eq_true. apply list_elem_of_In, one_of_In, E.
  - apply bool_decide_eq_false. intros H%list_elem_of_In%one_of_In. congruence.
Qed.

Lemma validate_input_length (raw : option pystr) n flag :
  0 <= n -> len (validate_input raw n flag) <= n.
Proof.
  intros Hn. unfold len.
  destruct raw as [[|c0 s0]|]; simpl validate_input; [simpl; lia| |simpl; lia].
  set (s := c0 :: s0). rewrite limit_length_firstn by exact Hn.
  set (t := firstn _ _).
  assert (Ht : (length t <= Z.to_nat n)%nat) by apply firstn_le_length.
  match goal with
  | |- Z.of_nat ?a <= _ => assert (H : (a <= length t)%nat)
  end.
  { etransitivity; [apply strip_length|].
    destruct (negb flag); [apply sub_class_length | reflexivity]. }
  lia.
Qed.

Lemma validate_input_no_special (raw : option pystr) n c :
  In c special_chars -> ~ In c (validate_input raw n false).
Proof.
  intros Hc. destruct raw as [[|c0 s0]|]; simpl validate_input; [tauto| |tauto].
  intros H%strip_In%sub_class_In. destruct H as [_ H].
  unfold special_class in H. apply one_of_In in Hc. congruence.
Qed.

End Sanitizer.

(** C6. For every input, every positive [max_length] and either flag, the
    sanitized string has at most [max_length] characters; with
    [allow_special_chars] false it holds none of the characters less-than,
    greater-than, double quote, single quote, the parentheses, ampersand and
    plus. *)
Theorem validate_input_bounded_and_clean :
  forall (raw : option pystr) (n : Z) (flag : bool),
    0 < n ->
    len (validate_input raw n flag) <= n /\
    (flag = false ->
     forall c, In c Reference.denylist -> ~ In c (validate_input raw n flag)).
Proof.
  intros raw n flag Hn. split.
  - apply validate_input_length. lia.
  - intros -> c Hc. apply validate_input_no_special.
    unfold Reference.denylist, special_chars in *. simpl in *. tauto.
Qed.

Lemma validate_input_bounded_and_clean_witness :
  0 < 5 /\
  len (validate_input (Some (lit "<b>(x+y)</b>")) 5 false) <= 5 /\
  (false = false ->
   forall c, In c Reference.denylist ->
             ~ In c (validate_input (Some (lit "<b>(x+y)</b>")) 5 false)).
Proof.
  split; [lia|].
  apply (validate_input_bounded_and_clean (Some (lit "<b>(x+y)</b>")) 5 false).
  lia.
Defined.

(** The source deletes a semicolon, which is not among the characters the
    specification lists for step (c). *)
Lemma validate_input_drops_semicolon :
  validate_input (Some (lit "a;b")) 10 false = lit "ab" /\
  Reference.sanitize Reference.denylist (Some (lit "a;b")) 10 false = lit "a;b" /\
  validate_input (Some (lit "a;b")) 10 false
    <> Reference.sanitize Reference.denylist (Some (lit "a;b")) 10 false.
Proof.
  split; [reflexivity|]. split; [reflexivity|].
  vm_compute. discriminate.
Qed.

(** C7, amended. For a [max_length] that is not negative the sanitizer is
    the pipeline of the specification, in its order (control characters
    removed, truncation, deletion of the special characters unless they are
    allowed, strip), where the deleted characters are those the
    specification lists and the semicolon. Absent or empty input gives the
    empty string, and the function is total. *)
Theorem validate_input_pipeline :
  forall (raw : option pystr) (n : Z) (flag : bool),
    0 <= n ->
    validate_input raw n flag = Reference.sanitize special_chars raw n flag /\
    validate_input None n flag = [] /\
    validate_input (Some []) n flag = [] /\
    (forall c, In c special_chars <-> In c Reference.denylist \/ c = 59%N).
Proof.
  intros raw n flag Hn. split; [|split; [reflexivity|split; [reflexivity|]]].
  - destruct raw as [[|c0 s0]|]; [|  |reflexivity].
    { unfold Reference.sanitize, Reference.remove. simpl.
      rewrite firstn_nil. destruct flag; reflexivity. }
    unfold Reference.sanitize, Reference.remove.
    change (validate_input (Some (c0 :: s0)) n flag) with
      (strip
         (let cleaned := sub_class control_class (c0 :: s0) in
          let cleaned :=
            if len cleaned >? n then slice_to cleaned n else cleaned in
          if negb flag then sub_class special_class cleaned else cleaned)).
    cbv zeta. rewrite limit_length_firstn by exact Hn.
    rewrite (sub_class_filter control_class).
    rewrite (List.filter_ext _ _
               (fun c => f_equal negb (control_class_spec c))).
    destruct flag; simpl negb; cbv iota; [reflexivity|].
    rewrite sub_class_filter.
    rewrite (List.filter_ext _ _
               (fun c => f_equal negb (special_class_spec c))).
    reflexivity.
  - intros c. unfold special_chars, Reference.denylist. simpl.
    intuition congruence.
Qed.

Lemma validate_input_pipeline_witness :
  0 <= 8 /\
  validate_input (Some (lit " <a href='x;y'> ")) 8 false
    = Reference.sanitize special_chars (Some (lit " <a href='x;y'> ")) 8 false.
Proof.
  split; [lia|].
  apply (validate_input_pipeline (Some (lit " <a href='x;y'> ")) 8 false). lia.
Defined.

(** ** The matcher *)

Section Matcher.

Implicit Types (s pre rest : pystr) (cls : char -> bool)
  (k : bool -> pystr -> bool).

Lemma rep_complete cls k pre : forall lo hi bol rest,
  forallb cls pre = true ->
  (lo <= length pre)%nat -> within hi (length pre) ->
  k (still_bol bol pre) rest = true ->
  rep cls k lo hi bol (pre ++ rest) = true.
Proof.
  induction pre as [|c pre IH]; intros lo hi bol rest Hall Hlo Hhi Hk.
  - simpl in *. assert (lo = 0%nat) as -> by lia.
    destruct rest; simpl; rewrite Hk; reflexivity.
  - simpl in Hall. apply andb_true_iff in Hall as [Hc Hall].
    simpl in Hlo, Hhi, Hk.
    assert (Hrec : rep cls k (Nat.pred lo) (option_map Nat.pred hi) false
                     (pre ++ rest) = true).
    { apply IH; [exact Hall | lia | | destruct pre; exact Hk].
      destruct hi as [h|]; simpl in *; [lia | exact I]. }
    change ((c :: pre) ++ rest) with (c :: (pre ++ rest)).
    simpl. rewrite Hc, Hrec.
    destruct hi as [[|h]|]; simpl in *; [lia | |]; apply orb_true_r.
Qed.

Lemma rep_sound cls k s : forall lo hi bol,
  rep cls k lo hi bol s = true ->
  exists pre rest,
    s = pre ++ rest /\ forallb cls pre = true /\
    (lo <= length pre)%nat /\ within hi (length pre) /\
    k (still_bol bol pre) rest = true.
Proof.
  induction s as [|c s IH]; intros lo hi bol H.
  - exists [], []. simpl in *.
    assert (H' : Nat.eqb lo 0 && k bol [] = true).
    { destruct hi as [[|h]|]; rewrite orb_false_r in H; exact H. }
    apply andb_true_iff in H' as [Hlo Hk]. apply Nat.eqb_eq in Hlo.
    repeat split; [lia | destruct hi; simpl; [lia | exact I] | exact Hk].
  - simpl in H. apply orb_true_iff in H as [H|H].
    + apply andb_true_iff in H as [Hlo Hk]. apply Nat.eqb_eq in Hlo.
      exists [], (c :: s).
      repeat split; [simpl; lia | destruct hi; simpl; [lia | exact I] | exact Hk].
    + assert (Hhi : hi <> Some 0%nat /\
                cls c && rep cls k (Nat.pred lo) (option_map Nat.pred hi) false s = true).
      { destruct hi as [[|h]|]; [discriminate | split; [discriminate | exact H]
                                | split; [discriminate | exact H]]. }
      destruct Hhi as [Hne Hck]. apply andb_true_iff in Hck as [Hc Hrec].
      destruct (IH _ _ _ Hrec) as (pre & rest & -> & Hall & Hlo & Hw & Hk).
      exists (c :: pre), rest. simpl. rewrite Hc, Hall.
      repeat split; [lia | | destruct pre; exact Hk].
      destruct hi as [[|h]|]; simpl in *; [congruence | lia | exact I].
Qed.

Lemma at_eol_spec s : at_eol s = true <-> s = [] \/ s = [10%N].
Proof.
  destruct s as [|c [|d s]]; simpl.
  - split; auto.
  - rewrite N.eqb_eq. split; [intros ->; auto | intros [H|H]; congruence].
  - split; [discriminate | intros [H|H]; discriminate].
Qed.

End Matcher.

(** ** The symbol validator *)

(** What the symbol validator accepts: one to ten ASCII letters and digits,
    optionally followed by one newline. *)
Lemma validate_symbol_accepts (symbol : option pystr) :
  validate_symbol symbol = true <->
  exists name,
    forallb alnum_class name = true /\ (1 <= length name <= 10)%nat /\
    (symbol = Some name \/ symbol = Some (name ++ [10%N])).
Proof.
  split.
  - destruct symbol as [[|c0 s0]|]; simpl; try discriminate.
    set (s := c0 :: s0). intros H.
    change (rep alnum_class (match_here [Eol]) 1 (Some 10%nat) true s = true) in H.
    apply rep_sound in H as (pre & rest & Hs & Hall & Hlo & Hhi & Hk).
    simpl in Hk, Hhi. rewrite andb_true_r in Hk. apply at_eol_spec in Hk.
    exists pre. repeat split; [exact Hall | lia | lia |].
    rewrite Hs. destruct Hk as [-> | ->]; [left; rewrite app_nil_r | right]; reflexivity.
  - intros (name & Hall & Hlen & Hs).
    assert (Hm : forall rest, at_eol rest = true ->
                   re_match symbol_pattern (name ++ rest) = true).
    { intros rest Hr. unfold re_match, symbol_pattern.
      change (rep alnum_class (match_here [Eol]) 1 (Some 10%nat) true (name ++ rest) = true).
      apply rep_complete; [exact Hall | lia | simpl; lia |].
      simpl. rewrite Hr. reflexivity. }
    destruct name as [|c name]; [simpl in Hlen; lia|].
    destruct Hs as [-> | ->].
    + specialize (Hm [] eq_refl). rewrite app_nil_r in Hm. exact Hm.
    + exact (Hm [10%N] eq_refl).
Qed.

(** C8 at the failing input: a ticker followed by a newline is accepted,
    because [$] also matches just before a final newline. *)
Theorem validate_symbol_trailing_newline :
  validate_symbol (Some (lit "AAPL" ++ [10%N])) = true.
Proof. reflexivity. Qed.

Example validate_symbol_AAPL : validate_symbol (Some (lit "AAPL")) = true.
Proof. reflexivity. Qed.

Example validate_symbol_suffix : validate_symbol (Some (lit "AAPL.US")) = false.
Proof. reflexivity. Qed.

Example validate_symbol_empty : validate_symbol (Some []) = false.
Proof. reflexivity. Qed.

Example validate_symbol_eleven : validate_symbol (Some (lit "AAAAAAAAAAA")) = false.
Proof. reflexivity. Qed.

(** ** The suspicious-pattern scan *)

Section ScanFacts.

Implicit Types (s : pystr) (p q : pattern) (ps : list pattern).

(** The loop stops at the first pattern that matches. *)
Lemma scan_patterns_first ps s :
  (exists pre p post,
      ps = pre ++ p :: post /\
      (forall q, In q pre -> re_search (pat_re q) s = false) /\
      re_search (pat_re p) s = true /\
      scan_patterns ps s = report p)
  \/ ((forall q, In q ps -> re_search (pat_re q) s = false) /\
      scan_patterns ps s = (false, lit "Clean")).
Proof.
  induction ps as [|p ps IH]; simpl.
  - right. split; [intros q [] | reflexivity].
  - destruct (re_search (pat_re p) s) eqn:E.
    + left. exists [], p, ps. repeat split; [intros q [] | exact E].
    + destruct IH as [(pre & p' & post & -> & Hpre & Hp & Hr) | [Hall Hr]].
      * left. exists (p :: pre), p', post.
        repeat split; [ | exact Hp | exact Hr].
        intros q [<- | Hq]; [exact E | apply Hpre, Hq].
      * right. split; [ | exact Hr].
        intros q [<- | Hq]; [exact E | apply Hall, Hq].
Qed.

(** A pattern without operators matches where its text starts. *)
Lemma match_here_text (t : pystr) : forall bol s,
  match_here (List.map Lit t) bol s = starts_with t s.
Proof.
  induction t as [|c t IH]; intros bol s; simpl; [reflexivity|].
  destruct s as [|x s]; [reflexivity|].
  rewrite IH, N.eqb_sym. reflexivity.
Qed.

Lemma re_search_text (t : string) s :
  re_search (text t) s = contains (lit t) s.
Proof.
  unfold re_search, text. generalize true.
  induction s as [|x s IH]; intros bol; simpl;
    rewrite match_here_text; [reflexivity|].
  rewrite IH. reflexivity.
Qed.

End ScanFacts.

(** *** What each pattern matches *)

Section ScanSemantics.

Implicit Types (r : regex) (s l t : pystr) (cls : char -> bool).

Lemma starts_with_spec t : forall s,
  starts_with t s = true <-> exists post, s = t ++ post.
Proof.
  induction t as [|a t IH]; intros s; simpl.
  - split; [intros _; exists s; reflexivity | reflexivity].
  - destruct s as [|b s].
    + split; [discriminate | intros [post H]; discriminate].
    + rewrite andb_true_iff, N.eqb_eq, IH. split.
      * intros [-> [post ->]]. exists post. reflexivity.
      * intros [post H]. injection H as -> ->.
        split; [reflexivity | exists post; reflexivity].
Qed.

Lemma contains_spec t s : contains t s = true <-> Signature.occurs t s.
Proof.
  unfold Signature.occurs. induction s as [|x s IH]; simpl.
  - rewrite orb_false_r, starts_with_spec. split.
    + intros [post H]. exists [], post. exact H.
    + intros (pre & post & H). destruct pre; [exists post; exact H | discriminate].
  - rewrite orb_true_iff, starts_with_spec, IH. split.
    + intros [[post H] | (pre & post & H)].
      * exists [], post. exact H.
      * exists (x :: pre), post. simpl. rewrite H. reflexivity.
    + intros (pre & post & H). destruct pre as [|y pre].
      * left. exists post. exact H.
      * right. simpl in H. injection H as -> H. exists pre, post. exact H.
Qed.

Lemma anchor_free_text t : anchor_free (List.map Lit t) = true.
Proof. induction t as [|c t IH]; [reflexivity | exact IH]. Qed.

Lemma anchor_free_app r1 r2 :
  anchor_free (r1 ++ r2) = anchor_free r1 && anchor_free r2.
Proof. unfold anchor_free. apply forallb_app. Qed.

(** For a pattern without anchors it does not matter whether the position
    is the start of the string. *)
Lemma match_here_bol r : anchor_free r = true ->
  forall b1 b2 s, match_here r b1 s = match_here r b2 s.
Proof.
  induction r as [|x r IH]; intros Hf b1 b2 s; [reflexivity|].
  unfold anchor_free in Hf. simpl in Hf. apply andb_true_iff in Hf as [Hx Hf].
  destruct x as [c | cls | cls lo hi | | ]; try discriminate; try reflexivity.
  simpl. destruct s as [|c s]; simpl; rewrite (IH Hf b1 b2); reflexivity.
Qed.

Lemma search_spec r : anchor_free r = true ->
  forall s b,
    search_from r b s = true <->
    exists pre rest, s = pre ++ rest /\ match_here r false rest = true.
Proof.
  intros Hf. induction s as [|x s IH]; intros b; simpl.
  - rewrite orb_false_r, (match_here_bol r Hf b false). split.
    + intros H. exists [], []. auto.
    + intros (pre & rest & H & Hm). symmetry in H.
      apply app_eq_nil in H as [_ ->]. exact Hm.
  - rewrite orb_true_iff, (match_here_bol r Hf b false), IH. split.
    + intros [H | (pre & rest & -> & Hm)].
      * exists [], (x :: s). auto.
      * exists (x :: pre), rest. auto.
    + intros (pre & rest & H & Hm). destruct pre as [|y pre]; simpl in H.
      * left. subst rest. exact Hm.
      * right. injection H as -> ->. exists pre, rest. auto.
Qed.

Lemma match_text_then t r : anchor_free r = true ->
  forall b s,
    match_here (List.map Lit t ++ r) b s = true <->
    exists rest, s = t ++ rest /\ match_here r false rest = true.
Proof.
  intros Hf. induction t as [|c t IH]; intros b s; simpl.
  - rewrite (match_here_bol r Hf b false). split.
    + intros H. exists s. auto.
    + intros (rest & -> & H). exact H.
  - destruct s as [|x s].
    + split; [discriminate | intros (rest & H & _); discriminate].
    + rewrite andb_true_iff, N.eqb_eq, IH. split.
      * intros [-> (rest & -> & H)]. exists rest. auto.
      * intros (rest & H & Hm). injection H as -> ->.
        split; [reflexivity | exists rest; auto].
Qed.

Lemma match_rep_then cls lo r : anchor_free r = true ->
  forall b s,
    match_here (Rep cls lo None :: r) b s = true <->
    exists pre rest,
      s = pre ++ rest /\ forallb cls pre = true /\ (lo <= length pre)%nat /\
      match_here r false rest = true.
Proof.
  intros Hf b s. simpl. split.
  - intros H. apply rep_sound in H as (pre & rest & -> & Hall & Hlo & _ & Hk).
    exists pre, rest. rewrite (match_here_bol r Hf _ false) in Hk. auto.
  - intros (pre & rest & -> & Hall & Hlo & Hk).
    apply rep_complete; [exact Hall | exact Hlo | exact I |].
    rewrite (match_here_bol r Hf _ false). exact Hk.
Qed.

Lemma search_literal (t : string) l :
  re_search (text t) l = true <-> Signature.occurs (lit t) l.
Proof. rewrite re_search_text. apply contains_spec. Qed.

Lemma search_spaced (a b : string) (gap : nat) l :
  re_search (text a ++ [Rep isspace gap None] ++ text b) l = true <->
  Signature.occurs_spaced (lit a) (lit b) gap l.
Proof.
  unfold re_search, text, Signature.occurs_spaced.
  assert (Hb : anchor_free (List.map Lit (lit b)) = true) by apply anchor_free_text.
  assert (Hr : anchor_free ([Rep isspace gap None] ++ List.map Lit (lit b)) = true)
    by exact Hb.
  assert (Hall : anchor_free (List.map Lit (lit a) ++ [Rep isspace gap None]
                                ++ List.map Lit (lit b)) = true)
    by (rewrite anchor_free_app, anchor_free_text; exact Hr).
  rewrite (search_spec _ Hall). split.
  - intros (pre & rest & -> & Hm).
    apply (match_text_then _ _ Hr) in Hm as (r1 & -> & Hm).
    apply (match_rep_then _ _ _ Hb) in Hm as (sp & r2 & -> & Hsp & Hgap & Hm).
    rewrite match_here_text in Hm. apply starts_with_spec in Hm as (post & ->).
    exists pre, sp, post. auto.
  - intros (pre & sp & post & -> & Hsp & Hgap).
    exists pre, (lit a ++ sp ++ lit b ++ post). split; [reflexivity|].
    apply (match_text_then _ _ Hr). exists (sp ++ lit b ++ post).
    split; [reflexivity|].
    apply (match_rep_then _ _ _ Hb). exists sp, (lit b ++ post).
    split; [reflexivity|]. split; [exact Hsp|]. split; [exact Hgap|].
    rewrite match_here_text. apply starts_with_spec. exists post. reflexivity.
Qed.

Lemma search_handler (word_class : char -> bool) l :
  re_search (text "on" ++ [Rep word_class 1 None; Rep isspace 0 None] ++ text "=") l
    = true <->
  Signature.occurs_handler word_class l.
Proof.
  unfold re_search, text, Signature.occurs_handler.
  assert (He : anchor_free (List.map Lit (lit "=")) = true) by reflexivity.
  assert (Hs : anchor_free (Rep isspace 0 None :: List.map Lit (lit "=")) = true)
    by reflexivity.
  assert (Hw : anchor_free ([Rep word_class 1 None; Rep isspace 0 None]
                              ++ List.map Lit (lit "=")) = true) by reflexivity.
  assert (Hall : anchor_free (List.map Lit (lit "on")
                                ++ [Rep word_class 1 None; Rep isspace 0 None]
                                ++ List.map Lit (lit "=")) = true) by reflexivity.
  rewrite (search_spec _ Hall). split.
  - intros (pre & rest & -> & Hm).
    apply (match_text_then _ _ Hw) in Hm as (r1 & -> & Hm).
    apply (match_rep_then _ _ _ Hs) in Hm as (w & r2 & -> & Hword & Hlen & Hm).
    apply (match_rep_then _ _ _ He) in Hm as (sp & r3 & -> & Hsp & _ & Hm).
    rewrite match_here_text in Hm. apply starts_with_spec in Hm as (post & ->).
    exists pre, w, sp, post. split; [reflexivity|].
    split; [intros ->; simpl in Hlen; lia | auto].
  - intros (pre & w & sp & post & -> & Hne & Hword & Hsp).
    exists pre, (lit "on" ++ w ++ sp ++ lit "=" ++ post). split; [reflexivity|].
    apply (match_text_then _ _ Hw). exists (w ++ sp ++ lit "=" ++ post).
    split; [reflexivity|].
    apply (match_rep_then _ _ _ Hs). exists w, (sp ++ lit "=" ++ post).
    split; [reflexivity|]. split; [exact Hword|].
    split; [destruct w; [congruence | simpl; lia]|].
    apply (match_rep_then _ _ _ He). exists sp, (lit "=" ++ post).
    split; [reflexivity|]. split; [exact Hsp|]. split; [lia|].
    rewrite match_here_text. apply starts_with_spec. exists post. reflexivity.
Qed.

(** Each pattern of the source, with its text, matches exactly where the
    signature of the same rank is present. *)
Lemma suspicious_patterns_signatures (word_class : char -> bool) :
  Forall2
    (fun p sg =>
       pat_src p = fst sg /\
       forall l, re_search (pat_re p) l = true <-> snd sg l)
    (suspicious_patterns word_class) (Signature.signatures word_class).
Proof.
  unfold suspicious_patterns, Signature.signatures.
  repeat (constructor;
          [split;
           [reflexivity
           | intros l; cbn [pat_re snd];
             first [apply search_literal | apply search_spaced | apply search_handler]]
          |]).
  constructor.
Qed.

(** The loop reports the first signature that is present. *)
Lemma scan_patterns_signatures (ps : list pattern)
    (sgs : list (string * (pystr -> Prop))) l :
  Forall2
    (fun p sg =>
       pat_src p = fst sg /\
       forall l, re_search (pat_re p) l = true <-> snd sg l) ps sgs ->
  (exists pre sg post,
      sgs = pre ++ sg :: post /\
      (forall q, In q pre -> ~ snd q l) /\ snd sg l /\
      scan_patterns ps l
      = (true, lit "Suspicious pattern detected: " ++ lit (fst sg)))
  \/ ((forall q, In q sgs -> ~ snd q l) /\ scan_patterns ps l = (false, lit "Clean")).
Proof.
  induction 1 as [|p sg ps sgs [Hsrc Hsem] _ IH]; simpl.
  - right. split; [intros q [] | reflexivity].
  - destruct (re_search (pat_re p) l) eqn:E.
    + left. exists [], sg, sgs. split; [reflexivity|].
      split; [intros q []|]. split; [apply Hsem, E | rewrite Hsrc; reflexivity].
    + assert (Hno : ~ snd sg l) by (intros H%Hsem; congruence).
      destruct IH as [(pre & sg' & post & -> & Hpre & Hsg & Hr) | [Hall Hr]].
      * left. exists (sg :: pre), sg', post. split; [reflexivity|].
        split; [|split; [exact Hsg | exact Hr]].
        intros q [<- | Hq]; [exact Hno | apply Hpre, Hq].
      * right. split; [|exact Hr].
        intros q [<- | Hq]; [exact Hno | apply Hall, Hq].
Qed.

End ScanSemantics.

(** C9. The scan lower-cases its input and reports the first signature of
    the list, in the order of the source, that is present in the lower-cased
    input: the script tag opener, the javascript scheme, an event-handler
    attribute, a call of eval, the document and window accessors, the
    parent-directory step, and the four SQL phrases. When none is present it
    returns the clean sentinel. Each pattern of the source matches exactly
    where its signature is present, and the result is a function of the input
    string alone. *)
Theorem check_suspicious_activity_first_match :
  forall (lower : pystr -> pystr) (word_class : char -> bool) (s : pystr),
    let ps := suspicious_patterns word_class in
    let sgs := Signature.signatures word_class in
    let r := check_suspicious_activity lower word_class s in
    List.map pat_src ps =
      ["<script"; "javascript:"; "on\w+\s*="; "eval\s*\("; "document\.";
       "window\."; "\.\./"; "union\s+select"; "drop\s+table"; "insert\s+into";
       "delete\s+from"]%string /\
    Forall2
      (fun p sg =>
         pat_src p = fst sg /\
         forall l, re_search (pat_re p) l = true <-> snd sg l) ps sgs /\
    ((exists pre sg post,
         sgs = pre ++ sg :: post /\
         (forall q, In q pre -> ~ snd q (lower s)) /\
         snd sg (lower s) /\
         r = (true, lit "Suspicious pattern detected: " ++ lit (fst sg)))
     \/ ((forall q, In q sgs -> ~ snd q (lower s)) /\
         r = (false, lit "Clean"))).
Proof.
  intros lower word_class s ps sgs r. split; [reflexivity|].
  split; [apply suspicious_patterns_signatures|].
  apply scan_patterns_signatures, suspicious_patterns_signatures.
Qed.

Section ScanExamples.

Import AsciiTables.

Example scan_script :
  scan "<SCRIPT>alert(1)</script>" = (true, lit "Suspicious pattern detected: <script").
Proof. reflexivity. Qed.

Example scan_hello : scan "hello world" = (false, lit "Clean").
Proof. reflexivity. Qed.

Example scan_handler :
  scan "<img src=x onerror = go>" = (true, lit "Suspicious pattern detected: on\w+\s*=").
Proof. reflexivity. Qed.

(** The earlier pattern of the list is the one reported. *)
Example scan_priority :
  scan "eval (document.cookie)" = (true, lit "Suspicious pattern detected: eval\s*\(").
Proof. reflexivity. Qed.

Example scan_sql :
  scan "1 UNION   SELECT *; drop table t" =
    (true, lit "Suspicious pattern detected: union\s+select").
Proof. reflexivity. Qed.

Example scan_traversal :
  scan "../../etc/passwd" = (true, lit "Suspicious pattern detected: \.\./").
Proof. reflexivity. Qed.

Example scan_unionselect : scan "unionselect" = (false, lit "Clean").
Proof. reflexivity. Qed.

End ScanExamples.

(** ** The field-validation decorator *)

Section Gate.

Variable lower : pystr -> pystr.
Variable word_class : char -> bool.
Variable py_str : jvalue -> pystr.
Context {R : Type}.

Implicit Types (req : request_body) (f : request_body -> R) (value : jvalue).






End Gate.

(** C10 at the failing input. When the JSON body of the request is [null],
    a boolean or a number, the test [field_name not in data] raises
    [TypeError]: the decorator neither answers 400 nor calls the wrapped
    function, for every field and policy. *)
Theorem require_valid_input_null_body :
  forall (lower : pystr -> pystr) (word_class : char -> bool)
         (py_str : jvalue -> pystr) (R : Type)
         (field : string) (n : Z) (allow : bool) (f : request_body -> R),
    require_valid_input lower word_class py_str field n allow f (JsonBody JNull)
    = Raised TypeError /\
    (forall b, require_valid_input lower word_class py_str field n allow f
                 (JsonBody (JBool b)) = Raised TypeError) /\
    (forall k, require_valid_input lower word_class py_str field n allow f
                 (JsonBody (JInt k)) = Raised TypeError) /\
    (forall x, require_valid_input lower word_class py_str field n allow f
                 (JsonBody (JFloat x)) = Raised TypeError).
Proof. intros. repeat split. Qed.

Section GateExamples.

Import AsciiTables.

Example gate_forwards_apple :
  require_valid_input lower word_class py_str "query" 100 false read_query
    (json_request "query" "apple")
  = Returned ([], Call (Some (JString (lit "apple")))).
Proof. reflexivity. Qed.

Example gate_forwards_sanitized :
  require_valid_input lower word_class py_str "query" 100 false read_query
    (json_request "query" "  Apple (AAPL) & co;  ")
  = Returned ([], Call (Some (JString (lit "Apple AAPL  co")))).
Proof. reflexivity. Qed.

Example gate_missing_field :
  require_valid_input lower word_class py_str "query" 100 false read_query
    (json_request "q" "apple")
  = Returned ([], Reply [("error", JStr (lit "Missing required field: query"))] 400).
Proof. reflexivity. Qed.

Example gate_rejects_script :
  require_valid_input lower word_class py_str "query" 100 false read_query
    (json_request "query" "<script>alert(1)</script>")
  = Returned
      ([SecurityEvent "SUSPICIOUS_INPUT"
          (lit "Field: query, Reason: Suspicious pattern detected: <script, Value: <script>alert(1)</script>")],
       Reply [("error", JStr (lit "Invalid input detected"))] 400).
Proof. reflexivity. Qed.

(** A JSON number as the value of the field is scanned and cleaned as its
    [str]. *)
Example gate_number_value :
  require_valid_input lower word_class py_str "query" 100 false read_query
    (JsonBody (JObject {[ "query"%string := JInt 42 ]}))
  = Returned ([], Call (Some (JString (lit "42")))).
Proof. reflexivity. Qed.

(** A JSON list or string that does not hold the field name is answered as
    a missing field; one that holds it raises at [data[field_name]]. *)
Example gate_list_body :
  require_valid_input lower word_class py_str "query" 100 false read_query
    (JsonBody (JArray [JString (lit "apple")]))
  = Returned ([], Reply [("error", JStr (lit "Missing required field: query"))] 400)
  /\
  require_valid_input lower word_class py_str "query" 100 false read_query
    (JsonBody (JArray [JString (lit "query")]))
  = Raised TypeError.
Proof. split; reflexivity. Qed.

Example gate_string_body :
  require_valid_input lower word_class py_str "query" 100 false read_query
    (JsonBody (JString (lit "my query")))
  = Raised TypeError.
Proof. reflexivity. Qed.

Example gate_form_body :
  require_valid_input lower word_class py_str "query" 100 false read_query
    (FormBody {[ "query"%string := lit " <b>apple</b> " ]})
  = Returned ([], Call (Some (JString (lit "bapple/b")))).
Proof. reflexivity. Qed.

End GateExamples.

(** ** The rate limiter *)

Section LimiterFacts.

Import Limiter.

Implicit Types (st : state) (c : string) (log : list Z) (t ws m w : Z)
  (h : hit) (hs : list hit).

(** *** The list comprehension *)

Lemma recent_In ws log t : In t (recent ws log) <-> In t log /\ ws < t.
Proof.
  induction log as [|e log IH]; simpl; [tauto|].
  destruct (e >? ws) eqn:E; rewrite Z.gtb_ltb in E.
  - apply Z.ltb_lt in E. simpl. rewrite IH. split.
    + intros [->|[? ?]]; auto.
    + intros [[->|?] ?]; auto.
  - apply Z.ltb_ge in E. rewrite IH. split.
    + intros [? ?]; auto.
    + intros [[->|?] ?]; [lia | auto].
Qed.

Lemma recent_length ws log : (length (recent ws log) <= length log)%nat.
Proof.
  induction log as [|e log IH]; simpl; [lia|].
  destruct (e >? ws); simpl; lia.
Qed.

Lemma recent_filter ws log : recent ws log = List.filter (fun t => ws <? t) log.
Proof.
  induction log as [|e log IH]; simpl; [reflexivity|].
  rewrite Z.gtb_ltb, IH. reflexivity.
Qed.

Lemma recent_all ws log : (forall e, In e log -> ws < e) -> recent ws log = log.
Proof.
  induction log as [|e log IH]; intros H; simpl; [reflexivity|].
  rewrite Z.gtb_ltb.
  replace (ws <? e) with true by (symmetry; apply Z.ltb_lt, H; left; reflexivity).
  f_equal. apply IH. intros e' He'. apply H. right. exact He'.
Qed.

Lemma recent_none ws log : (forall e, In e log -> e <= ws) -> recent ws log = [].
Proof.
  induction log as [|e log IH]; intros H; simpl; [reflexivity|].
  rewrite Z.gtb_ltb.
  replace (ws <? e) with false
    by (symmetry; apply Z.ltb_ge, H; left; reflexivity).
  apply IH. intros e' He'. apply H. right. exact He'.
Qed.

Lemma recent_app ws log1 log2 :
  recent ws (log1 ++ log2) = recent ws log1 ++ recent ws log2.
Proof.
  induction log1 as [|e log1 IH]; simpl; [reflexivity|].
  destruct (e >? ws); simpl; congruence.
Qed.

(** *** Reading the storage after each statement *)

Lemma storage_get_clean c ws st :
  storage_get (clean_old_requests c ws st) c = recent ws (storage_get st c).
Proof.
  unfold storage_get at 1, clean_old_requests. simpl.
  rewrite lookup_insert_eq. reflexivity.
Qed.

Lemma storage_get_clean_ne c c' ws st :
  c <> c' -> storage_get (clean_old_requests c ws st) c' = storage_get st c'.
Proof.
  intros Hne. unfold storage_get, clean_old_requests. simpl.
  rewrite lookup_insert_ne by exact Hne. reflexivity.
Qed.

Lemma storage_get_add c t st :
  storage_get (add_request c t st) c = storage_get st c ++ [t].
Proof.
  unfold storage_get at 1, add_request. simpl.
  rewrite lookup_insert_eq. reflexivity.
Qed.

(** *** The four ways through the decorated function *)

Lemma rate_limit_blocked m w c t st :
  c ∈ blocked_ips st -> rate_limit m w c t st = (st, blocked_reply).
Proof.
  intros Hb. unfold rate_limit. rewrite decide_True by exact Hb. reflexivity.
Qed.

Lemma rate_limit_admit m w c t st :
  c ∉ blocked_ips st ->
  Z.of_nat (length (recent (t - w * 60) (storage_get st c))) < m ->
  rate_limit m w c t st =
    (add_request c t (clean_old_requests c (t - w * 60) st), Call tt).
Proof.
  intros Hb Hlt. unfold rate_limit. rewrite decide_False by exact Hb.
  cbv zeta. rewrite storage_get_clean.
  destruct (_ >=? m) eqn:E; [|reflexivity].
  rewrite Z.geb_leb in E. apply Z.leb_le in E. lia.
Qed.

Lemma rate_limit_limited m w c t st :
  c ∉ blocked_ips st ->
  m <= Z.of_nat (length (recent (t - w * 60) (storage_get st c))) <= m * 2 ->
  rate_limit m w c t st =
    (clean_old_requests c (t - w * 60) st, limit_reply w).
Proof.
  intros Hb [Hge Hle]. unfold rate_limit. rewrite decide_False by exact Hb.
  cbv zeta. rewrite storage_get_clean.
  destruct (_ >=? m) eqn:E.
  - destruct (_ >? m * 2) eqn:E'; [|reflexivity].
    rewrite Z.gtb_ltb in E'. apply Z.ltb_lt in E'. lia.
  - rewrite Z.geb_leb in E. apply Z.leb_gt in E. lia.
Qed.

Lemma rate_limit_escalates m w c t st :
  c ∉ blocked_ips st ->
  m * 2 < Z.of_nat (length (recent (t - w * 60) (storage_get st c))) ->
  rate_limit m w c t st =
    (block_ip c (clean_old_requests c (t - w * 60) st), limit_reply w).
Proof.
  intros Hb Hgt. unfold rate_limit. rewrite decide_False by exact Hb.
  cbv zeta. rewrite storage_get_clean.
  destruct (_ >=? m) eqn:E.
  - destruct (_ >? m * 2) eqn:E'; [reflexivity|].
    rewrite Z.gtb_ltb in E'. apply Z.ltb_ge in E'. lia.
  - rewrite Z.geb_leb in E. apply Z.leb_gt in E. lia.
Qed.

(** The blocked set of the new state: unchanged, or with the client added. *)
Lemma rate_limit_blocked_ips m w c t st :
  blocked_ips (fst (rate_limit m w c t st)) = blocked_ips st \/
  blocked_ips (fst (rate_limit m w c t st)) = {[c]} ∪ blocked_ips st.
Proof.
  unfold rate_limit. destruct (decide (c ∈ blocked_ips st)); [left; reflexivity|].
  cbv zeta. destruct (_ >=? m); [|left; reflexivity].
  destruct (_ >? m * 2); [right | left]; reflexivity.
Qed.

Lemma rate_limit_mono m w c t st :
  blocked_ips st ⊆ blocked_ips (fst (rate_limit m w c t st)).
Proof.
  destruct (rate_limit_blocked_ips m w c t st) as [-> | ->]; set_solver.
Qed.

(** *** Sequences of requests *)

Lemma serve_all_cons h hs st :
  serve_all (h :: hs) st =
    (fst (serve_all hs (fst (serve h st))),
     snd (serve h st) :: snd (serve_all hs (fst (serve h st)))).
Proof.
  simpl. destruct (serve h st) as [st1 o]. simpl.
  destruct (serve_all hs st1) as [st2 os]. reflexivity.
Qed.

Lemma serve_all_mono hs : forall st,
  blocked_ips st ⊆ blocked_ips (fst (serve_all hs st)).
Proof.
  induction hs as [|h hs IH]; intros st; [reflexivity|].
  rewrite serve_all_cons. simpl. etransitivity; [|apply IH].
  apply rate_limit_mono.
Qed.

Lemma serve_all_blocked hs : forall st c i h,
  c ∈ blocked_ips st -> hs !! i = Some h -> hit_client h = c ->
  snd (serve_all hs st) !! i = Some blocked_reply.
Proof.
  induction hs as [|h0 hs IH]; intros st c i h Hb Hi Hc; [discriminate|].
  rewrite serve_all_cons. simpl. destruct i as [|i]; simpl in *.
  - injection Hi as ->. unfold serve. rewrite Hc.
    rewrite rate_limit_blocked by exact Hb. reflexivity.
  - apply (IH _ c i h); [|exact Hi|exact Hc].
    apply (rate_limit_mono _ _ _ _ st c), Hb.
Qed.

(** One client under one policy: the log never grows past the limit and
    the client is not blocked. *)
Lemma rate_limit_keeps_bound m w c t st :
  0 <= m -> c ∉ blocked_ips st ->
  Z.of_nat (length (storage_get st c)) <= m ->
  (c ∉ blocked_ips (fst (rate_limit m w c t st))) /\
  Z.of_nat (length (storage_get (fst (rate_limit m w c t st)) c)) <= m.
Proof.
  intros Hm Hb Hlen.
  pose proof (recent_length (t - w * 60) (storage_get st c)) as Hr.
  destruct (Z_lt_le_dec
              (Z.of_nat (length (recent (t - w * 60) (storage_get st c)))) m)
    as [Hlt | Hge].
  - rewrite rate_limit_admit by assumption. simpl. split; [exact Hb|].
    rewrite storage_get_add, storage_get_clean, length_app. simpl. lia.
  - rewrite rate_limit_limited by (try assumption; lia). simpl.
    split; [exact Hb|]. rewrite storage_get_clean. lia.
Qed.

Lemma serve_all_keeps_bound m w c ts : forall st,
  0 <= m -> c ∉ blocked_ips st ->
  Z.of_nat (length (storage_get st c)) <= m ->
  (c ∉ blocked_ips (fst (serve_all (List.map (Hit m w c) ts) st))) /\
  Z.of_nat (length (storage_get (fst (serve_all (List.map (Hit m w c) ts) st)) c)) <= m.
Proof.
  induction ts as [|t ts IH]; intros st Hm Hb Hlen; [split; assumption|].
  change (List.map (Hit m w c) (t :: ts)) with (Hit m w c t :: List.map (Hit m w c) ts).
  rewrite serve_all_cons. simpl fst.
  destruct (rate_limit_keeps_bound m w c t st Hm Hb Hlen) as [Hb' Hlen'].
  apply IH; assumption.
Qed.

(** Requests that all find room: each is admitted and logged. *)
Lemma serve_all_admitted m w c ts : forall st old done,
  storage_get st c = old ++ done ->
  c ∉ blocked_ips st ->
  (forall e t, In e old -> In t ts -> e <= t - w * 60) ->
  (forall e t, In e (done ++ ts) -> In t ts -> t - w * 60 < e) ->
  Z.of_nat (length done + length ts) <= m ->
  snd (serve_all (List.map (Hit m w c) ts) st) = repeat (Call tt) (length ts) /\
  (c ∉ blocked_ips (fst (serve_all (List.map (Hit m w c) ts) st))) /\
  (ts <> [] ->
   storage_get (fst (serve_all (List.map (Hit m w c) ts) st)) c = done ++ ts).
Proof.
  induction ts as [|t ts IH]; intros st old done Hlog Hb Hold Hnew Hroom.
  - simpl. repeat split; [exact Hb | congruence].
  - change (List.map (Hit m w c) (t :: ts))
      with (Hit m w c t :: List.map (Hit m w c) ts).
    rewrite serve_all_cons. unfold serve. simpl hit_max_requests.
    simpl hit_window_minutes. simpl hit_client. simpl hit_time.
    assert (Hpruned : recent (t - w * 60) (storage_get st c) = done).
    { rewrite Hlog, recent_app.
      rewrite recent_none by (intros e He; apply Hold; [exact He | left; reflexivity]).
      apply recent_all. intros e He. apply Hnew; [|left; reflexivity].
      apply in_or_app. left. exact He. }
    simpl length in Hroom.
    rewrite rate_limit_admit by (try exact Hb; rewrite Hpruned; lia).
    simpl fst. simpl snd.
    set (st1 := add_request c t _).
    assert (Hlog1 : storage_get st1 c = [] ++ (done ++ [t])).
    { unfold st1. rewrite storage_get_add, storage_get_clean, Hpruned. reflexivity. }
    destruct (IH st1 [] (done ++ [t]) Hlog1) as (Hout & Hb' & Hlog').
    + exact Hb.
    + intros e t' [].
    + intros e t' He Ht'. apply Hnew; [|right; exact Ht'].
      rewrite <- app_assoc in He. exact He.
    + rewrite length_app. simpl. lia.
    + rewrite Hout. repeat split; [exact Hb'|]. intros _.
      destruct ts as [|t' ts].
      * simpl. exact Hlog1.
      * rewrite Hlog' by discriminate. rewrite <- app_assoc. reflexivity.
Qed.

End LimiterFacts.

Import Limiter.

(** C1. Under a policy with [max_requests = n], [n >= 1], a client that is
    not blocked and has no logged timestamp inside the window of any of the
    calls sends [n] requests and then one more, all within one window: the
    first [n] are admitted and their timestamps logged in order, and the
    next one is rejected with [retry_after = window_minutes * 60]. *)
Theorem rate_limit_admits_n_then_rejects :
  forall (n : nat) (w : Z) (c : string) (st : state) (ts : list Z) (t_last : Z),
    (1 <= n)%nat -> length ts = n ->
    c ∉ blocked_ips st ->
    (forall e t, In e (storage_get st c) -> In t (ts ++ [t_last]) -> e <= t - w * 60) ->
    (forall t' t, In t' ts -> In t (ts ++ [t_last]) -> t - w * 60 < t') ->
    let run := serve_all (List.map (Hit (Z.of_nat n) w c) ts) st in
    let last := rate_limit (Z.of_nat n) w c t_last (fst run) in
    snd run = repeat (Call tt) n /\
    storage_get (fst run) c = ts /\
    snd last = limit_reply w /\
    rejected (snd last) = true /\
    retry_after (snd last) = Some (JNum (w * 60)).
Proof.
  intros n w c st ts t_last Hn Hlen Hb Hold Hwin run last.
  destruct (serve_all_admitted (Z.of_nat n) w c ts st (storage_get st c) [])
    as (Hout & Hb' & Hlog).
  - rewrite app_nil_r. reflexivity.
  - exact Hb.
  - intros e t He Ht. apply Hold; [exact He|]. apply in_or_app. left. exact Ht.
  - intros e t He Ht. apply Hwin; [exact He|]. apply in_or_app. left. exact Ht.
  - simpl. lia.
  - assert (Hts : ts <> []) by (intros ->; simpl in Hlen; lia).
    specialize (Hlog Hts). simpl in Hlog. fold run in Hout, Hb', Hlog.
    assert (Hlast : last = (clean_old_requests c (t_last - w * 60) (fst run),
                            limit_reply w)).
    { unfold last. apply rate_limit_limited; [exact Hb'|].
      rewrite Hlog, recent_all.
      - lia.
      - intros e He. apply Hwin; [exact He|].
        apply in_or_app. right. left. reflexivity. }
    rewrite Hout, Hlen, Hlast. repeat split. exact Hlog.
Qed.

Lemma rate_limit_admits_n_then_rejects_witness :
  let run := serve_all (List.map (Hit 3 1 "10.0.0.1") [100; 110; 120]) init in
  snd run = [Call tt; Call tt; Call tt] /\
  storage_get (fst run) "10.0.0.1" = [100; 110; 120] /\
  retry_after (snd (rate_limit 3 1 "10.0.0.1" 130 (fst run))) = Some (JNum 60).
Proof.
  intros run.
  destruct (rate_limit_admits_n_then_rejects 3 1 "10.0.0.1" init [100; 110; 120] 130)
    as (H1 & H2 & _ & _ & H5).
  - lia.
  - reflexivity.
  - vm_compute. discriminate.
  - simpl. intros e t [].
  - simpl. intros t' t. lia.
  - split; [exact H1|]. split; [exact H2|exact H5].
Defined.

(** C2. A request of a client whose pruned log holds more than
    [2 * max_requests] timestamps is rejected and leaves the client in the
    blocked set; every later request of a blocked client, under any policy
    and at any time, gets the reply without [retry_after]; and the blocked
    set never loses a member. *)
Theorem rate_limit_blocks_for_good :
  forall (m w : Z) (c : string) (t : Z) (st : state) (hs : list hit),
    (m * 2 < Z.of_nat (length (recent (t - w * 60) (storage_get st c))) ->
     rejected (snd (rate_limit m w c t st)) = true /\
     c ∈ blocked_ips (fst (rate_limit m w c t st)))
    /\
    (c ∈ blocked_ips st ->
     (forall i h, hs !! i = Some h -> hit_client h = c ->
        snd (serve_all hs st) !! i = Some blocked_reply) /\
     retry_after blocked_reply = None /\
     rejected blocked_reply = true /\
     c ∈ blocked_ips (fst (serve_all hs st)))
    /\
    blocked_ips st ⊆ blocked_ips (fst (serve_all hs st)).
Proof.
  intros m w c t st hs. split; [|split].
  - intros Hgt. destruct (decide (c ∈ blocked_ips st)) as [Hb|Hb].
    + rewrite rate_limit_blocked by exact Hb. split; [reflexivity | exact Hb].
    + rewrite rate_limit_escalates by assumption.
      split; [reflexivity|]. simpl. set_solver.
  - intros Hb. split; [|split; [reflexivity|split; [reflexivity|]]].
    + intros i h Hi Hc. apply (serve_all_blocked hs st c i h); assumption.
    + apply (serve_all_mono hs st c), Hb.
  - apply serve_all_mono.
Qed.

Lemma rate_limit_blocks_for_good_witness :
  let c := "10.0.0.1"%string in
  let st := State {[ c := [1; 2; 3] ]} ∅ in
  let st' := fst (rate_limit 1 1 c 4 st) in
  c ∈ blocked_ips st' /\
  snd (serve_all [Hit 1 1 c 5; Hit 100 1 c 100000] st') !! 1%nat = Some blocked_reply.
Proof.
  intros c st st'.
  assert (Hin : c ∈ blocked_ips st').
  { apply (rate_limit_blocks_for_good 1 1 c 4 st []).
    vm_compute. reflexivity. }
  split; [exact Hin|].
  apply (proj1 (proj1 (proj2 (rate_limit_blocks_for_good 1 1 c 4 st'
                                [Hit 1 1 c 5; Hit 100 1 c 100000])) Hin)
           1%nat (Hit 100 1 c 100000)); reflexivity.
Defined.

(** C3. One client sends any sequence of requests under one policy with
    [max_requests > 0], starting from an empty log and not blocked: after
    every prefix of the sequence its log holds at most [max_requests]
    timestamps and it is not blocked; a request that is not admitted appends
    nothing. *)
Theorem rate_limit_never_escalates_alone :
  forall (m w : Z) (c : string) (ts : list Z) (st : state) (k : nat),
    0 < m -> storage_get st c = [] -> c ∉ blocked_ips st ->
    let st' := fst (serve_all (List.map (Hit m w c) (firstn k ts)) st) in
    Z.of_nat (length (storage_get st' c)) <= m /\
    ~ m * 2 < Z.of_nat (length (storage_get st' c)) /\
    (c ∉ blocked_ips st') /\
    (forall t, snd (rate_limit m w c t st') <> Call tt ->
       storage_get (fst (rate_limit m w c t st')) c
       = recent (t - w * 60) (storage_get st' c)).
Proof.
  intros m w c ts st k Hm Hlog Hb st'.
  destruct (serve_all_keeps_bound m w c (firstn k ts) st) as [Hb' Hlen];
    [lia | exact Hb | rewrite Hlog; simpl; lia |].
  fold st' in Hb', Hlen.
  split; [exact Hlen|]. split; [lia|]. split; [exact Hb'|].
  intros t Hrej.
  destruct (Z_lt_le_dec
              (Z.of_nat (length (recent (t - w * 60) (storage_get st' c)))) m)
    as [Hlt | Hge].
  - rewrite rate_limit_admit in Hrej by assumption. simpl in Hrej. congruence.
  - pose proof (recent_length (t - w * 60) (storage_get st' c)) as Hr.
    rewrite rate_limit_limited by (try assumption; lia). simpl.
    apply storage_get_clean.
Qed.

Lemma rate_limit_never_escalates_alone_witness :
  let c := "10.0.0.1"%string in
  let st' := fst (serve_all (List.map (Hit 2 1 c) (firstn 5 [1; 2; 3; 4; 5; 6])) init) in
  Z.of_nat (length (storage_get st' c)) <= 2 /\ (c ∉ blocked_ips st').
Proof.
  intros c st'.
  destruct (rate_limit_never_escalates_alone 2 1 c [1; 2; 3; 4; 5; 6] init 5)
    as (H1 & _ & H3 & _).
  - lia.
  - reflexivity.
  - vm_compute. discriminate.
  - split; [exact H1 | exact H3].
Defined.

(** The reply of the limiter depends on the state only through the log of
    the client and its membership of the blocked set. *)
Lemma rate_limit_reads_client_log (m w : Z) (c : string) (t : Z) (st1 st2 : state) :
  storage_get st1 c = storage_get st2 c ->
  (c ∈ blocked_ips st1 <-> c ∈ blocked_ips st2) ->
  snd (rate_limit m w c t st1) = snd (rate_limit m w c t st2).
Proof.
  intros Hlog Hb. unfold rate_limit.
  destruct (decide (c ∈ blocked_ips st1)) as [H1|H1],
           (decide (c ∈ blocked_ips st2)) as [H2|H2]; try tauto.
  cbv zeta. rewrite !storage_get_clean, Hlog.
  destruct (_ >=? m); reflexivity.
Qed.

(** C4. The log and the blocked set are keyed by the client alone: a
    request admitted under any policy is appended to the log of the client,
    and the reply under any policy is computed from that log. Eleven requests
    of one client to [/company-profile] (30 per minute) followed by one to
    [/analyze-company] (5 per minute) are served one after the other: the
    eleven are admitted, the twelfth finds eleven timestamps, more than twice
    five, and the client is blocked from then on. *)
Theorem mixed_endpoints_escalate :
  (forall m w c t st,
      snd (rate_limit m w c t st) = Call tt ->
      storage_get (fst (rate_limit m w c t st)) c
      = recent (t - w * 60) (storage_get st c) ++ [t])
  /\
  (forall m w c t st1 st2,
      storage_get st1 c = storage_get st2 c ->
      (c ∈ blocked_ips st1 <-> c ∈ blocked_ips st2) ->
      snd (rate_limit m w c t st1) = snd (rate_limit m w c t st2))
  /\
  (let c := "203.0.113.7"%string in
   let hs := List.map (company_profile_hit c) [1; 2; 3; 4; 5; 6; 7; 8; 9; 10; 11]
             ++ [analyze_company_hit c 12] in
   let st := fst (serve_all hs init) in
   snd (serve_all hs init) = repeat (Call tt) 11 ++ [limit_reply 1] /\
   storage_get st c = [1; 2; 3; 4; 5; 6; 7; 8; 9; 10; 11] /\
   c ∈ blocked_ips st /\
   forall h, hit_client h = c -> snd (serve h st) = blocked_reply).
Proof.
  split; [|split; [exact rate_limit_reads_client_log|]].
  - intros m w c t st Hcall.
    destruct (decide (c ∈ blocked_ips st)) as [Hb|Hb].
    { rewrite rate_limit_blocked in Hcall by exact Hb. discriminate. }
    destruct (Z_lt_le_dec
                (Z.of_nat (length (recent (t - w * 60) (storage_get st c)))) m)
      as [Hlt | Hge].
    + rewrite rate_limit_admit by assumption. simpl.
      rewrite storage_get_add, storage_get_clean. reflexivity.
    + exfalso. revert Hcall. unfold rate_limit.
      rewrite decide_False by exact Hb. cbv zeta. rewrite storage_get_clean.
      replace (_ >=? m) with true
        by (symmetry; rewrite Z.geb_leb; apply Z.leb_le; exact Hge).
      discriminate.
  - intros c hs st.
    assert (Hin : c ∈ blocked_ips st).
    { apply (bool_decide_unpack (c ∈ blocked_ips st)). vm_compute. exact I. }
    split; [vm_compute; reflexivity|].
    split; [vm_compute; reflexivity|].
    split; [exact Hin|].
    intros h Hc. unfold serve. rewrite Hc.
    rewrite rate_limit_blocked by exact Hin. reflexivity.
Qed.

(** The claim that pruning keeps a timestamp equal to [window_start] fails:
    with one request logged at 0 and [window_minutes = 1], a request at 60
    has [window_start = 0] and the logged timestamp is dropped. *)
Lemma clean_old_requests_drops_boundary :
  let c := "203.0.113.7"%string in
  let st := State {[ c := [0] ]} ∅ in
  let window_start := 60 - 1 * 60 in
  In 0 (storage_get st c) /\ window_start <= 0 /\
  ~ In 0 (storage_get (clean_old_requests c window_start st) c) /\
  storage_get (fst (rate_limit 10 1 c 60 st)) c = [60].
Proof.
  intros c st window_start.
  split; [left; reflexivity|]. split; [vm_compute; discriminate|].
  split; [vm_compute; tauto | vm_compute; reflexivity].
Qed.

(** C5, amended. For a client that is not blocked the pruning step keeps
    exactly the logged timestamps greater than [window_start], in their order
    and number, and drops those less than or equal to it; when no logged
    timestamp is later than [now], what is left lies in the half-open
    interval from [now - window] (excluded) to [now] (included). The log the
    call leaves is the pruned one, followed by [now] if the request is
    admitted. *)
Theorem clean_old_requests_keeps_recent :
  forall (m w : Z) (c : string) (now : Z) (st : state),
    let window_start := now - w * 60 in
    let pruned := storage_get (clean_old_requests c window_start st) c in
    (forall t, In t pruned <-> In t (storage_get st c) /\ window_start < t) /\
    pruned = List.filter (fun t => window_start <? t) (storage_get st c) /\
    ((forall t, In t (storage_get st c) -> t <= now) ->
     forall t, In t pruned -> window_start < t <= now) /\
    (c ∉ blocked_ips st ->
     storage_get (fst (rate_limit m w c now st)) c = pruned \/
     storage_get (fst (rate_limit m w c now st)) c = pruned ++ [now]).
Proof.
  intros m w c now st window_start pruned.
  assert (Hp : pruned = recent window_start (storage_get st c))
    by apply storage_get_clean.
  split; [|split; [|split]].
  - intros t. rewrite Hp. apply recent_In.
  - rewrite Hp. apply recent_filter.
  - intros Hle t Ht. rewrite Hp in Ht. apply recent_In in Ht as [Ht Hws].
    split; [exact Hws | apply Hle, Ht].
  - intros Hb.
    destruct (Z_lt_le_dec (Z.of_nat (length (recent window_start (storage_get st c)))) m)
      as [Hlt | Hge].
    + right. unfold window_start in Hlt. rewrite rate_limit_admit by assumption.
      simpl. rewrite storage_get_add. reflexivity.
    + left. unfold rate_limit. rewrite decide_False by exact Hb. cbv zeta.
      rewrite storage_get_clean.
      replace (_ >=? m) with true
        by (symmetry; rewrite Z.geb_leb; apply Z.leb_le; exact Hge).
      destruct (_ >? m * 2); reflexivity.
Qed.

Lemma clean_old_requests_keeps_recent_witness :
  let c := "203.0.113.7"%string in
  let st := State {[ c := [0; 1; 59] ]} ∅ in
  storage_get (clean_old_requests c (60 - 1 * 60) st) c = [1; 59] /\
  60 - 1 * 60 < 1 <= 60 /\ 60 - 1 * 60 < 59 <= 60.
Proof.
  intros c st.
  assert (Hle : forall t, In t (storage_get st c) -> t <= 60).
  { vm_compute. intros t [H|[H|[H|[]]]]; subst t; discriminate. }
  pose proof (proj1 (proj2 (proj2 (clean_old_requests_keeps_recent 10 1 c 60 st))) Hle)
    as Hin.
  split; [reflexivity|]. split; apply Hin; vm_compute; tauto.
Defined.

(** * Further properties of the code *)

(** ** More on the sanitizer *)

Section SanitizerMore.

Implicit Types (s t : pystr) (c : char) (n : Z) (cls : char -> bool).

Lemma lstrip_length s : (length (lstrip s) <= length s)%nat.
Proof.
  destruct (lstrip_suffix s) as [pre H]. rewrite H at 2.
  rewrite length_app. lia.
Qed.

Lemma lstrip_head c s : lstrip (c :: s) = c :: s -> isspace c = false.
Proof.
  simpl. destruct (isspace c); [|reflexivity]. intros H.
  pose proof (lstrip_length s) as Hl. rewrite H in Hl. simpl in Hl. lia.
Qed.

Lemma lstrip_fixed s :
  match s with [] => True | c :: _ => isspace c = false end -> lstrip s = s.
Proof. destruct s as [|c s]; simpl; [reflexivity | intros ->; reflexivity]. Qed.

Lemma lstrip_idem s : lstrip (lstrip s) = lstrip s.
Proof.
  induction s as [|c s IH]; simpl; [reflexivity|].
  destruct (isspace c) eqn:E; [exact IH|]. simpl. rewrite E. reflexivity.
Qed.

Lemma rstrip_idem s : rstrip (rstrip s) = rstrip s.
Proof. unfold rstrip. rewrite rev_involutive, lstrip_idem. reflexivity. Qed.

(** [rstrip] does not uncover leading white space. *)
Lemma lstrip_rstrip s : lstrip s = s -> lstrip (rstrip s) = rstrip s.
Proof.
  intros Hs. destruct (rstrip_prefix s) as [post Hpost].
  apply lstrip_fixed. destruct (rstrip s) as [|c r] eqn:E; [exact I|].
  rewrite Hpost in Hs. simpl in Hs. apply (lstrip_head c (r ++ post)).
  simpl. exact Hs.
Qed.

Lemma strip_idem s : strip (strip s) = strip s.
Proof.
  unfold strip. rewrite (lstrip_rstrip (lstrip s)) by apply lstrip_idem.
  apply rstrip_idem.
Qed.

Lemma sub_class_fixed cls s :
  (forall c, In c s -> cls c = false) -> sub_class cls s = s.
Proof.
  induction s as [|c s IH]; intros H; simpl; [reflexivity|].
  rewrite (H c) by (left; reflexivity). f_equal. apply IH.
  intros c' Hc'. apply H. right. exact Hc'.
Qed.

Lemma sub_class_sublist cls s : sublist (sub_class cls s) s.
Proof.
  induction s as [|c s IH]; simpl; [constructor|].
  destruct (cls c); [apply sublist_cons | apply sublist_skip]; exact IH.
Qed.

Lemma strip_sublist s : sublist (strip s) s.
Proof.
  destruct (strip_infix s) as (pre & post & H). rewrite H at 2.
  apply sublist_inserts_l, sublist_inserts_r. reflexivity.
Qed.

Lemma slice_to_sublist s n : sublist (slice_to s n) s.
Proof. unfold slice_to. destruct (0 <=? n); apply sublist_take. Qed.

Lemma sublist_In (A : Type) (l1 l2 : list A) (x : A) :
  sublist l1 l2 -> In x l1 -> In x l2.
Proof.
  intros Hsub Hx. apply list_elem_of_In. apply list_elem_of_In in Hx.
  exact (elem_of_sublist _ _ _ Hx Hsub).
Qed.

(** The three statements before the final [strip]. *)
Lemma validate_input_unfold c0 s0 n flag :
  validate_input (Some (c0 :: s0)) n flag =
  strip
    (let cleaned := sub_class control_class (c0 :: s0) in
     let cleaned := if len cleaned >? n then slice_to cleaned n else cleaned in
     if negb flag then sub_class special_class cleaned else cleaned).
Proof. reflexivity. Qed.

Lemma validate_input_sublist s n flag : sublist (validate_input (Some s) n flag) s.
Proof.
  destruct s as [|c0 s0]; [reflexivity|]. rewrite validate_input_unfold. cbv zeta.
  etransitivity; [apply strip_sublist|].
  etransitivity; [|apply (sub_class_sublist control_class)].
  set (a := sub_class control_class (c0 :: s0)).
  assert (Hb : sublist (if len a >? n then slice_to a n else a) a).
  { destruct (len a >? n); [apply slice_to_sublist | reflexivity]. }
  destruct (negb flag); [|exact Hb].
  etransitivity; [apply sub_class_sublist | exact Hb].
Qed.

Lemma validate_input_no_control (raw : option pystr) n flag c :
  In c (validate_input raw n flag) -> control_class c = false.
Proof.
  destruct raw as [[|c0 s0]|]; try (intros []).
  rewrite validate_input_unfold. cbv zeta. intros H%strip_In.
  set (a := sub_class control_class (c0 :: s0)) in *.
  assert (Ha : In c a).
  { assert (Hb : sublist (if len a >? n then slice_to a n else a) a).
    { destruct (len a >? n); [apply slice_to_sublist | reflexivity]. }
    destruct (negb flag).
    - apply sub_class_In in H as [H _]. exact (sublist_In _ _ _ _ Hb H).
    - exact (sublist_In _ _ _ _ Hb H). }
  apply sub_class_In in Ha as [_ Ha]. exact Ha.
Qed.

Lemma validate_input_stripped (raw : option pystr) n flag :
  strip (validate_input raw n flag) = validate_input raw n flag.
Proof.
  destruct raw as [[|c0 s0]|]; try reflexivity.
  rewrite validate_input_unfold. apply strip_idem.
Qed.

(** Text that needs no cleaning comes back as it is. *)
Lemma validate_input_fixed s n flag :
  (forall c, In c s -> control_class c = false) ->
  len s <= n ->
  (flag = false -> forall c, In c s -> special_class c = false) ->
  strip s = s ->
  validate_input (Some s) n flag = s.
Proof.
  intros Hctl Hlen Hsp Hstrip. destruct s as [|c0 s0]; [reflexivity|].
  rewrite validate_input_unfold. cbv zeta.
  rewrite (sub_class_fixed control_class) by exact Hctl.
  replace (len (c0 :: s0) >? n) with false
    by (symmetry; rewrite Z.gtb_ltb; apply Z.ltb_ge; exact Hlen).
  destruct flag; simpl negb; cbv iota; [exact Hstrip|].
  rewrite sub_class_fixed by (apply Hsp; reflexivity). exact Hstrip.
Qed.

Lemma in_range_spec (lo hi c : char) :
  in_range lo hi c = true <-> (lo <= c <= hi)%N.
Proof. unfold in_range. rewrite andb_true_iff, !N.leb_le. reflexivity. Qed.

Lemma alnum_class_spec c :
  alnum_class c = true <->
  ((65 <= c <= 90) \/ (97 <= c <= 122) \/ (48 <= c <= 57))%N.
Proof.
  unfold alnum_class. rewrite !orb_true_iff, !in_range_spec. tauto.
Qed.

Lemma alnum_plain c :
  alnum_class c = true ->
  control_class c = false /\ special_class c = false /\ isspace c = false.
Proof.
  intros H%alnum_class_spec. repeat split; apply not_true_is_false; intros E.
  - unfold control_class in E.
    rewrite !orb_true_iff, !in_range_spec, !one_of_In in E. simpl in E. lia.
  - unfold special_class, special_chars in E. rewrite one_of_In in E.
    simpl in E. lia.
  - unfold isspace in E.
    rewrite !orb_true_iff, !in_range_spec, !one_of_In in E. simpl in E. lia.
Qed.

End SanitizerMore.

Lemma strip_plain (s : pystr) :
  (forall c, In c s -> isspace c = false) -> strip s = s.
Proof.
  intros H. unfold strip, rstrip.
  assert (Hl : forall t : pystr, (forall c, In c t -> isspace c = false) -> lstrip t = t).
  { intros t Ht. apply lstrip_fixed. destruct t as [|c t]; [exact I|].
    apply Ht. left. reflexivity. }
  rewrite (Hl s H). rewrite Hl; [apply rev_involutive|].
  intros c Hc. apply H. apply in_rev. exact Hc.
Qed.

(** X1. The sanitizer only deletes: its result is a subsequence of the
    input, for every bound and flag; an absent input gives the empty
    string. *)
Theorem validate_input_subsequence :
  forall (s : pystr) (n : Z) (flag : bool),
    sublist (validate_input (Some s) n flag) s /\
    validate_input None n flag = [].
Proof.
  intros s n flag. split; [apply validate_input_sublist | reflexivity].
Qed.

(** X2. Whatever the bound and the flag, the sanitized string holds no
    control character of the deleted class and has no white space at either
    end, so that a further [strip], as in [search_company], changes
    nothing. *)
Theorem validate_input_tidy :
  forall (raw : option pystr) (n : Z) (flag : bool),
    tidy (validate_input raw n flag).
Proof.
  intros raw n flag. split.
  - intros c. apply validate_input_no_control.
  - apply validate_input_stripped.
Qed.

(** X3. With a bound that is not negative the sanitizer is idempotent. *)
Theorem validate_input_idempotent :
  forall (raw : option pystr) (n : Z) (flag : bool),
    0 <= n ->
    validate_input (Some (validate_input raw n flag)) n flag
    = validate_input raw n flag.
Proof.
  intros raw n flag Hn. apply validate_input_fixed.
  - intros c. apply validate_input_no_control.
  - apply validate_input_length, Hn.
  - intros -> c Hc. destruct (special_class c) eqn:E; [|reflexivity].
    exfalso. apply (validate_input_no_special raw n c); [|exact Hc].
    apply one_of_In. exact E.
  - apply validate_input_stripped.
Qed.

Lemma validate_input_idempotent_witness :
  0 <= 6 /\
  validate_input (Some (validate_input (Some (lit " <b>Apple</b> ")) 6 false)) 6 false
  = validate_input (Some (lit " <b>Apple</b> ")) 6 false.
Proof.
  split; [lia|].
  apply (validate_input_idempotent (Some (lit " <b>Apple</b> ")) 6 false). lia.
Defined.

(** X4. A string without control characters, not longer than the bound,
    without special characters when these are not allowed, and without white
    space at its ends is returned unchanged. *)
Theorem validate_input_keeps_clean_text :
  forall (s : pystr) (n : Z) (flag : bool),
    (forall c, In c s -> control_class c = false) ->
    len s <= n ->
    (flag = false -> forall c, In c s -> special_class c = false) ->
    strip s = s ->
    validate_input (Some s) n flag = s.
Proof. intros s n flag. apply validate_input_fixed. Qed.

Lemma validate_input_keeps_clean_text_witness :
  validate_input (Some (lit "Apple Inc")) 100 false = lit "Apple Inc".
Proof.
  apply (validate_input_keeps_clean_text (lit "Apple Inc") 100 false).
  - intros c Hc. simpl in Hc.
    repeat (destruct Hc as [<- | Hc]; [reflexivity|]). destruct Hc.
  - vm_compute. discriminate.
  - intros _ c Hc. simpl in Hc.
    repeat (destruct Hc as [<- | Hc]; [reflexivity|]). destruct Hc.
  - reflexivity.
Defined.

(** X5. A ticker of one to ten ASCII letters and digits is accepted by
    the symbol validator and passes the sanitizer of [/analyze-company]
    (bound 10, special characters not allowed) unchanged. *)
Theorem ticker_accepted_and_kept :
  forall name : pystr,
    forallb alnum_class name = true -> (1 <= length name <= 10)%nat ->
    validate_symbol (Some name) = true /\
    validate_input (Some name) 10 false = name.
Proof.
  intros name Hall Hlen.
  assert (Hplain : forall c, In c name ->
            control_class c = false /\ special_class c = false /\ isspace c = false).
  { intros c Hc. apply alnum_plain. rewrite forallb_forall in Hall.
    apply Hall, Hc. }
  split.
  - apply validate_symbol_accepts. exists name.
    split; [exact Hall|]. split; [exact Hlen | left; reflexivity].
  - apply validate_input_fixed.
    + intros c Hc. apply Hplain, Hc.
    + unfold len. lia.
    + intros _ c Hc. apply Hplain, Hc.
    + apply strip_plain. intros c Hc. apply Hplain, Hc.
Qed.

Lemma ticker_accepted_and_kept_witness :
  validate_symbol (Some (lit "BRK2")) = true /\
  validate_input (Some (lit "BRK2")) 10 false = lit "BRK2".
Proof.
  apply (ticker_accepted_and_kept (lit "BRK2")).
  - reflexivity.
  - simpl. lia.
Defined.

(** ** The API-key check *)

Lemma validate_api_key_cases (api_key : option pystr) (service_name : string) :
  (validate_api_key api_key service_name = (true, lit "Valid") /\
   exists k, api_key = Some k /\ starts_with (lit "your_") k = false /\ 10 <= len k)
  \/
  (validate_api_key api_key service_name = (false, configure_message service_name) /\
   forall k, api_key = Some k -> k = [] \/ starts_with (lit "your_") k = true)
  \/
  (validate_api_key api_key service_name = (false, format_message service_name) /\
   forall k, api_key = Some k -> len k < 10).
Proof.
  destruct api_key as [[|c k]|].
  - right. left. split; [reflexivity|]. intros k Hk. injection Hk as <-. auto.
  - unfold validate_api_key.
    destruct (starts_with (lit "your_") (c :: k)) eqn:Ep.
    + right. left. split; [reflexivity|]. intros k' Hk. injection Hk as <-. auto.
    + destruct (len (c :: k) <? 10) eqn:El.
      * right. right. split; [reflexivity|]. intros k' Hk. injection Hk as <-.
        apply Z.ltb_lt, El.
      * left. split; [reflexivity|]. exists (c :: k).
        split; [reflexivity|]. split; [exact Ep | apply Z.ltb_ge, El].
  - right. left. split; [reflexivity|]. intros k Hk. discriminate.
Qed.

(** X6. A key is accepted exactly when it is present, does not start with
    [your_] and has at least ten characters; the message is then [Valid].
    Otherwise the message is one of the two texts built from the service
    name, so that no message holds anything of the key. *)
Theorem validate_api_key_accepts :
  forall (api_key : option pystr) (service_name : string),
    (fst (validate_api_key api_key service_name) = true <->
     exists k, api_key = Some k /\ starts_with (lit "your_") k = false /\ 10 <= len k)
    /\
    (fst (validate_api_key api_key service_name) = true <->
     snd (validate_api_key api_key service_name) = lit "Valid")
    /\
    In (snd (validate_api_key api_key service_name))
       [configure_message service_name; format_message service_name; lit "Valid"].
Proof.
  intros api_key service_name.
  assert (Hc : configure_message service_name <> lit "Valid").
  { unfold configure_message. simpl. discriminate. }
  assert (Hf : format_message service_name <> lit "Valid").
  { unfold format_message. simpl. discriminate. }
  destruct (validate_api_key_cases api_key service_name)
    as [[-> Hk] | [[-> Hk] | [-> Hk]]]; cbn [fst snd].
  - split; [|split; [|right; right; left; reflexivity]].
    + split; [intros _; exact Hk | reflexivity].
    + split; reflexivity.
  - split; [|split; [|left; reflexivity]].
    + split; [discriminate|]. intros (k & Hs & Hp & Hlen).
      destruct (Hk k Hs) as [-> | Hp']; [|congruence].
      unfold len in Hlen. simpl in Hlen. lia.
    + split; [discriminate | intros H; contradiction].
  - split; [|split; [|right; left; reflexivity]].
    + split; [discriminate|]. intros (k & Hs & _ & Hlen).
      specialize (Hk k Hs). lia.
    + split; [discriminate | intros H; contradiction].
Qed.

(** ** The symbol validator and its decorator *)

(** X7. The symbol validator accepts exactly the strings made of one to
    ten ASCII letters and digits, optionally followed by one newline; absent
    and empty symbols are refused. *)
Theorem validate_symbol_language :
  forall symbol : option pystr,
    (validate_symbol symbol = true <->
     exists name,
       forallb alnum_class name = true /\ (1 <= length name <= 10)%nat /\
       (symbol = Some name \/ symbol = Some (name ++ [10%N])))
    /\ validate_symbol None = false /\ validate_symbol (Some []) = false.
Proof.
  intros symbol. split; [apply validate_symbol_accepts|]. split; reflexivity.
Qed.

(** X8. The decorator takes the symbol from the URL variables when there
    is one, else from the request data, else the empty string. It calls the
    wrapped function, with the same arguments and logging nothing, exactly
    when that symbol is one to ten ASCII letters and digits with at most a
    final newline; otherwise it logs one INVALID_SYMBOL event and answers 400
    without calling it. A request without any symbol is refused. *)
Theorem validate_symbol_input_gate :
  forall (R : Type) (f : gmap string pystr -> flask_request -> R)
         (kwargs : gmap string pystr) (req : flask_request),
    let symbol := default (default [] (request_data req !! "symbol"))
                          (kwargs !! "symbol") in
    ((exists name,
         forallb alnum_class name = true /\ (1 <= length name <= 10)%nat /\
         (symbol = name \/ symbol = name ++ [10%N]) /\
         validate_symbol_input f kwargs req = ([], Call (f kwargs req)))
     \/
     (validate_symbol (Some symbol) = false /\
      validate_symbol_input f kwargs req =
        ([SecurityEvent "INVALID_SYMBOL" (lit "Invalid symbol format: " ++ symbol)],
         Reply [("error", JStr (lit "Invalid symbol format"))] 400)))
    /\
    (kwargs !! "symbol" = None -> request_data req !! "symbol" = None ->
     snd (validate_symbol_input f kwargs req) =
       Reply [("error", JStr (lit "Invalid symbol format"))] 400).
Proof.
  intros R f kwargs req symbol.
  assert (Hdef : validate_symbol_input f kwargs req =
                 if negb (validate_symbol (Some symbol))
                 then ([SecurityEvent "INVALID_SYMBOL"
                          (lit "Invalid symbol format: " ++ symbol)],
                       Reply [("error", JStr (lit "Invalid symbol format"))] 400)
                 else ([], Call (f kwargs req))).
  { unfold validate_symbol_input, symbol, request_data.
    destruct (kwargs !! "symbol"); reflexivity. }
  split.
  - destruct (validate_symbol (Some symbol)) eqn:E.
    + left.
      assert (Hres : validate_symbol_input f kwargs req = ([], Call (f kwargs req)))
        by (rewrite Hdef; reflexivity).
      apply validate_symbol_accepts in E as (name & Hall & Hlen & Hs).
      exists name. split; [exact Hall|]. split; [exact Hlen|].
      split; [|exact Hres].
      destruct Hs as [Hs|Hs]; injection Hs as Hs; [left | right]; exact Hs.
    + right. split; [reflexivity|]. rewrite Hdef. reflexivity.
  - intros Hk Hd. unfold validate_symbol_input. unfold request_data in Hd.
    unfold pystr in *. rewrite Hk, Hd. reflexivity.
Qed.

(** ** More on the scan *)

Section ScanMore.

Implicit Types (r : regex) (s a b : pystr) (p : pattern) (ps : list pattern).

Lemma scan_patterns_flag ps s :
  fst (scan_patterns ps s) = true <->
  exists p, In p ps /\ re_search (pat_re p) s = true.
Proof.
  destruct (scan_patterns_first ps s)
    as [(pre & p & post & -> & _ & Hp & ->) | [Hall ->]]; simpl.
  - split; [intros _ | reflexivity]. exists p. split; [|exact Hp].
    apply in_or_app. right. left. reflexivity.
  - split; [discriminate|]. intros (p & Hin & Hp).
    rewrite (Hall p Hin) in Hp. discriminate.
Qed.

Lemma anchor_free_cons x r :
  anchor_free (x :: r) = true ->
  x <> Bol /\ x <> Eol /\ anchor_free r = true.
Proof.
  unfold anchor_free. simpl. intros H%andb_true_iff. destruct H as [Hx Hr].
  repeat split; [| |exact Hr]; intros ->; discriminate.
Qed.

(** A pattern without anchors that matches at a position still matches
    there when text is added behind. *)
Lemma match_here_extend r : anchor_free r = true ->
  forall bol bol' s b,
    match_here r bol s = true -> match_here r bol' (s ++ b) = true.
Proof.
  induction r as [|x r IH]; intros Hfree bol bol' s b H; [reflexivity|].
  apply anchor_free_cons in Hfree as (Hbol & Heol & Hfree).
  specialize (IH Hfree).
  destruct x as [c | cls | cls lo hi | | ]; try congruence.
  - destruct s as [|y s]; [discriminate|]. simpl in *.
    apply andb_true_iff in H as [-> H]. simpl. exact (IH _ _ _ _ H).
  - destruct s as [|y s]; [discriminate|]. simpl in *.
    apply andb_true_iff in H as [-> H]. simpl. exact (IH _ _ _ _ H).
  - simpl in *.
    apply rep_sound in H as (pre & rest & -> & Hall & Hlo & Hhi & Hk).
    rewrite <- app_assoc. apply rep_complete; try assumption.
    exact (IH _ _ _ _ Hk).
Qed.

Lemma search_from_extend_r r : anchor_free r = true ->
  forall s bol bol' b,
    search_from r bol s = true -> search_from r bol' (s ++ b) = true.
Proof.
  intros Hfree. induction s as [|y s IH]; intros bol bol' b H.
  - simpl in H. rewrite orb_false_r in H.
    pose proof (match_here_extend r Hfree bol bol' [] b H) as Hm.
    simpl in Hm. destruct b; simpl; rewrite Hm; reflexivity.
  - simpl in H. apply orb_true_iff in H as [H|H].
    + pose proof (match_here_extend r Hfree bol bol' (y :: s) b H) as Hm.
      simpl app in *. simpl. rewrite Hm. reflexivity.
    + simpl. rewrite (IH false false b H). apply orb_true_r.
Qed.

Lemma search_from_extend r : anchor_free r = true ->
  forall a s b bol bol',
    search_from r bol s = true -> search_from r bol' (a ++ s ++ b) = true.
Proof.
  intros Hfree. induction a as [|y a IH]; intros s b bol bol' H.
  - simpl. exact (search_from_extend_r r Hfree s bol bol' b H).
  - simpl. rewrite (IH s b bol false H). apply orb_true_r.
Qed.

Lemma suspicious_patterns_anchor_free (word_class : char -> bool) p :
  In p (suspicious_patterns word_class) -> anchor_free (pat_re p) = true.
Proof.
  intros Hp. simpl in Hp.
  repeat (destruct Hp as [<- | Hp]; [reflexivity|]). destruct Hp.
Qed.

End ScanMore.

(** X9. An input whose lower-cased form contains one of the literal
    signatures of the list (the script tag opener, the javascript scheme,
    the document and window accessors, the parent-directory step) is reported
    as suspicious. *)
Theorem literal_signature_is_suspicious :
  forall (lower : pystr -> pystr) (word_class : char -> bool)
         (user_input : pystr) (t : string),
    In t ["<script"; "javascript:"; "document."; "window."; "../"]%string ->
    contains (lit t) (lower user_input) = true ->
    fst (check_suspicious_activity lower word_class user_input) = true.
Proof.
  intros lower word_class user_input t Ht Hc.
  unfold check_suspicious_activity. apply scan_patterns_flag.
  rewrite <- re_search_text in Hc. simpl in Ht.
  destruct Ht as [<- | [<- | [<- | [<- | [<- | []]]]]].
  - exists (Pattern "<script" (text "<script")). split; [|exact Hc].
    simpl. auto.
  - exists (Pattern "javascript:" (text "javascript:")). split; [|exact Hc].
    simpl. auto.
  - exists (Pattern "document\." (text "document.")). split; [|exact Hc].
    simpl. auto 10.
  - exists (Pattern "window\." (text "window.")). split; [|exact Hc].
    simpl. auto 10.
  - exists (Pattern "\.\./" (text "../")). split; [|exact Hc].
    simpl. auto 10.
Qed.

Lemma literal_signature_is_suspicious_witness :
  fst (check_suspicious_activity AsciiTables.lower AsciiTables.word_class
         (lit "see WINDOW.location")) = true.
Proof.
  apply (literal_signature_is_suspicious AsciiTables.lower AsciiTables.word_class
           (lit "see WINDOW.location") "window.").
  - simpl. tauto.
  - reflexivity.
Defined.

(** X10. No pattern of the list is anchored: when an input is suspicious,
    every input whose lower-cased form contains the lower-cased form of the
    first is suspicious too. *)
Theorem suspicious_in_any_context :
  forall (lower : pystr -> pystr) (word_class : char -> bool)
         (s s' a b : pystr),
    lower s' = a ++ lower s ++ b ->
    fst (check_suspicious_activity lower word_class s) = true ->
    fst (check_suspicious_activity lower word_class s') = true.
Proof.
  intros lower word_class s s' a b Hctx. unfold check_suspicious_activity.
  rewrite !scan_patterns_flag. intros (p & Hin & Hp).
  exists p. split; [exact Hin|]. rewrite Hctx. unfold re_search in *.
  apply (search_from_extend (pat_re p)
           (suspicious_patterns_anchor_free word_class p Hin)
           a (lower s) b true true Hp).
Qed.

Lemma suspicious_in_any_context_witness :
  fst (check_suspicious_activity AsciiTables.lower AsciiTables.word_class
         (lit "Name: x' UNION  SELECT 1 --")) = true.
Proof.
  apply (suspicious_in_any_context AsciiTables.lower AsciiTables.word_class
           (lit "Union  Select") (lit "Name: x' UNION  SELECT 1 --")
           (lit "name: x' ") (lit " 1 --")).
  - reflexivity.
  - reflexivity.
Defined.

(** ** More on the field decorator *)



(** ** More on the rate limiter *)

Section LimiterMore.

Implicit Types (st : state) (c : string) (log : list Z) (t ws m w now : Z)
  (h : hit) (hs : list hit).

Lemma rate_limit_cases m w c t st :
  (c ∈ blocked_ips st /\ rate_limit m w c t st = (st, blocked_reply))
  \/ ((c ∉ blocked_ips st) /\ in_window st c t w < m /\
      rate_limit m w c t st =
        (add_request c t (clean_old_requests c (t - w * 60) st), Call tt))
  \/ ((c ∉ blocked_ips st) /\ m <= in_window st c t w <= m * 2 /\
      rate_limit m w c t st = (clean_old_requests c (t - w * 60) st, limit_reply w))
  \/ ((c ∉ blocked_ips st) /\ m <= in_window st c t w /\ m * 2 < in_window st c t w /\
      rate_limit m w c t st =
        (block_ip c (clean_old_requests c (t - w * 60) st), limit_reply w)).
Proof.
  unfold in_window.
  destruct (decide (c ∈ blocked_ips st)) as [Hb|Hb].
  { left. split; [exact Hb | apply rate_limit_blocked, Hb]. }
  right.
  destruct (Z_lt_le_dec
              (Z.of_nat (length (recent (t - w * 60) (storage_get st c)))) m)
    as [Hlt|Hge].
  { left. split; [exact Hb|]. split; [exact Hlt | apply rate_limit_admit; assumption]. }
  right.
  destruct (Z_lt_le_dec (m * 2)
              (Z.of_nat (length (recent (t - w * 60) (storage_get st c)))))
    as [Hgt|Hle].
  - right. split; [exact Hb|]. split; [exact Hge|]. split; [exact Hgt|].
    apply rate_limit_escalates; assumption.
  - left. split; [exact Hb|]. split; [lia|]. apply rate_limit_limited; [exact Hb | lia].
Qed.

Lemma storage_get_add_ne c c' t st :
  c <> c' -> storage_get (add_request c t st) c' = storage_get st c'.
Proof.
  intros Hne. unfold storage_get, add_request. simpl.
  rewrite lookup_insert_ne by exact Hne. reflexivity.
Qed.

(** A request of [c] leaves the log and the blocked status of every other
    client as they were. *)
Lemma rate_limit_other m w c c' t st :
  c <> c' ->
  storage_get (fst (rate_limit m w c t st)) c' = storage_get st c' /\
  (c' ∈ blocked_ips (fst (rate_limit m w c t st)) <-> c' ∈ blocked_ips st).
Proof.
  intros Hne.
  destruct (rate_limit_cases m w c t st)
    as [[_ ->] | [(_ & _ & ->) | [(_ & _ & ->) | (_ & _ & _ & ->)]]]; simpl.
  - split; reflexivity.
  - rewrite storage_get_add_ne, storage_get_clean_ne by exact Hne.
    split; reflexivity.
  - rewrite storage_get_clean_ne by exact Hne. split; reflexivity.
  - split.
    + change (storage_get (clean_old_requests c (t - w * 60) st) c' = storage_get st c').
      apply storage_get_clean_ne, Hne.
    + rewrite elem_of_union, elem_of_singleton.
      split; [intros [H|H]; [congruence | exact H] | auto].
Qed.

Lemma serve_all_other hs : forall st c',
  Forall (fun h => hit_client h <> c') hs ->
  storage_get (fst (serve_all hs st)) c' = storage_get st c' /\
  (c' ∈ blocked_ips (fst (serve_all hs st)) <-> c' ∈ blocked_ips st).
Proof.
  induction hs as [|h hs IH]; intros st c' Hall; [split; reflexivity|].
  rewrite serve_all_cons. simpl fst.
  apply Forall_cons in Hall as [Hh Hall].
  destruct (IH (fst (serve h st)) c' Hall) as [Hlog Hb].
  destruct (rate_limit_other (hit_max_requests h) (hit_window_minutes h)
              (hit_client h) c' (hit_time h) st Hh) as [Hlog' Hb'].
  unfold serve in *. split; [congruence | tauto].
Qed.

(** The log of the caller after a call. *)
Lemma rate_limit_log m w c t st :
  storage_get (fst (rate_limit m w c t st)) c = storage_get st c \/
  storage_get (fst (rate_limit m w c t st)) c = recent (t - w * 60) (storage_get st c) \/
  storage_get (fst (rate_limit m w c t st)) c
    = recent (t - w * 60) (storage_get st c) ++ [t].
Proof.
  destruct (rate_limit_cases m w c t st)
    as [[_ ->] | [(_ & _ & ->) | [(_ & _ & ->) | (_ & _ & _ & ->)]]]; simpl.
  - left. reflexivity.
  - right. right. rewrite storage_get_add, storage_get_clean. reflexivity.
  - right. left. apply storage_get_clean.
  - right. left.
    change (storage_get (clean_old_requests c (t - w * 60) st) c
            = recent (t - w * 60) (storage_get st c)).
    apply storage_get_clean.
Qed.

Lemma recent_sorted ws log :
  StronglySorted Z.le log -> StronglySorted Z.le (recent ws log).
Proof.
  induction 1 as [|e log Hs IH Hall]; simpl; [constructor|].
  destruct (e >? ws); [|exact IH]. constructor; [exact IH|].
  apply Forall_forall. intros x Hx%list_elem_of_In%recent_In. destruct Hx as [Hx _].
  rewrite Forall_forall in Hall. apply Hall, list_elem_of_In, Hx.
Qed.

Lemma sorted_snoc log t :
  StronglySorted Z.le log -> Forall (fun e => e <= t) log ->
  StronglySorted Z.le (log ++ [t]).
Proof.
  induction 1 as [|e log Hs IH Hall]; intros Hle; simpl.
  - constructor; constructor.
  - apply Forall_cons in Hle as [He Hle]. constructor; [apply IH, Hle|].
    apply Forall_app. split; [exact Hall|]. constructor; [exact He | constructor].
Qed.

Lemma recent_bounded ws log now :
  Forall (fun e => e <= now) log -> Forall (fun e => e <= now) (recent ws log).
Proof.
  rewrite !Forall_forall. intros H x Hx%list_elem_of_In%recent_In.
  apply H, list_elem_of_In, Hx.
Qed.

Lemma rate_limit_ordered m w c t st now :
  logs_ordered now st -> now <= t ->
  logs_ordered t (fst (rate_limit m w c t st)).
Proof.
  intros Hord Hnow c'.
  assert (Hup : forall log, Forall (fun e => e <= now) log ->
                            Forall (fun e => e <= t) log).
  { intros log H. eapply Forall_impl; [exact H|]. intros e He. simpl in He. lia. }
  destruct (decide (c = c')) as [<- | Hne].
  - destruct (Hord c) as [Hs Hb].
    destruct (rate_limit_log m w c t st) as [-> | [-> | ->]].
    + split; [exact Hs | apply Hup, Hb].
    + split; [apply recent_sorted, Hs | apply Hup, recent_bounded, Hb].
    + split.
      * apply sorted_snoc; [apply recent_sorted, Hs | apply Hup, recent_bounded, Hb].
      * apply Forall_app. split; [apply Hup, recent_bounded, Hb|].
        constructor; [lia | constructor].
  - destruct (Hord c') as [Hs Hb].
    destruct (rate_limit_other m w c c' t st Hne) as [-> _].
    split; [exact Hs | apply Hup, Hb].
Qed.

End LimiterMore.

(** X12. Requests of other clients, under any policies and at any times,
    leave the log and the blocked status of a client as they were, and so do
    not change the reply to its next request. *)
Theorem clients_do_not_interfere :
  forall (hs : list hit) (st : state) (c : string) (m w t : Z),
    Forall (fun h => hit_client h <> c) hs ->
    storage_get (fst (serve_all hs st)) c = storage_get st c /\
    (c ∈ blocked_ips (fst (serve_all hs st)) <-> c ∈ blocked_ips st) /\
    snd (rate_limit m w c t (fst (serve_all hs st))) = snd (rate_limit m w c t st).
Proof.
  intros hs st c m w t Hall.
  destruct (serve_all_other hs st c Hall) as [Hlog Hb].
  split; [exact Hlog|]. split; [exact Hb|].
  apply rate_limit_reads_client_log; assumption.
Qed.

Lemma clients_do_not_interfere_witness :
  let hs := [Hit 1 1 "198.51.100.1" 1; Hit 1 1 "198.51.100.1" 2;
             Hit 0 1 "198.51.100.2" 3] in
  storage_get (fst (serve_all hs init)) "203.0.113.7" = [] /\
  snd (rate_limit 5 1 "203.0.113.7" 4 (fst (serve_all hs init)))
  = snd (rate_limit 5 1 "203.0.113.7" 4 init).
Proof.
  intros hs.
  destruct (clients_do_not_interfere hs init "203.0.113.7" 5 1 4)
    as (H1 & _ & H3).
  - repeat constructor; discriminate.
  - split; [exact H1 | exact H3].
Defined.

(** X13. A request is admitted exactly when the client is not blocked and
    fewer than [max_requests] of its logged timestamps are later than
    [window_start]; otherwise the reply is a 429. No call makes the log of
    the client longer by more than one entry. *)
Theorem rate_limit_admits_iff :
  forall (m w : Z) (c : string) (t : Z) (st : state),
    (snd (rate_limit m w c t st) = Call tt <->
     (c ∉ blocked_ips st) /\ in_window st c t w < m) /\
    (rejected (snd (rate_limit m w c t st)) = true <->
     c ∈ blocked_ips st \/ m <= in_window st c t w) /\
    (length (storage_get (fst (rate_limit m w c t st)) c)
     <= length (storage_get st c) + 1)%nat.
Proof.
  intros m w c t st.
  pose proof (recent_length (t - w * 60) (storage_get st c)) as Hr.
  split; [|split].
  - destruct (rate_limit_cases m w c t st)
      as [[Hb ->] | [(Hb & Hn & ->) | [(Hb & Hn & ->) | (Hb & Hn & _ & ->)]]];
      simpl; split; try discriminate; try tauto; intros [? ?]; try tauto; lia.
  - destruct (rate_limit_cases m w c t st)
      as [[Hb ->] | [(Hb & Hn & ->) | [(Hb & Hn & ->) | (Hb & Hn & _ & ->)]]];
      simpl;
      (split;
       [ first [discriminate | intros _; first [left; exact Hb | right; lia]]
       | first [reflexivity | intros [H|H]; [tauto | lia]] ]).
  - destruct (rate_limit_log m w c t st) as [-> | [-> | ->]];
      rewrite ?length_app; simpl; lia.
Qed.

(** X14. Once every logged timestamp of a client that is not blocked has
    left the window, its next request under a policy with a positive limit is
    admitted, and its log then holds that request alone. *)
Theorem rate_limit_recovers :
  forall (m w : Z) (c : string) (t : Z) (st : state),
    c ∉ blocked_ips st -> 0 < m ->
    (forall e, In e (storage_get st c) -> e <= t - w * 60) ->
    snd (rate_limit m w c t st) = Call tt /\
    storage_get (fst (rate_limit m w c t st)) c = [t].
Proof.
  intros m w c t st Hb Hm Hold.
  assert (Hnone : recent (t - w * 60) (storage_get st c) = [])
    by (apply recent_none, Hold).
  rewrite rate_limit_admit; [|exact Hb | rewrite Hnone; simpl; lia].
  split; [reflexivity|]. simpl.
  rewrite storage_get_add, storage_get_clean, Hnone. reflexivity.
Qed.

Lemma rate_limit_recovers_witness :
  let st := State {[ "203.0.113.7"%string := [1; 2; 3] ]} ∅ in
  snd (rate_limit 3 1 "203.0.113.7" 2 st) = limit_reply 1 /\
  snd (rate_limit 3 1 "203.0.113.7" 63 st) = Call tt /\
  storage_get (fst (rate_limit 3 1 "203.0.113.7" 63 st)) "203.0.113.7" = [63].
Proof.
  intros st. split; [reflexivity|].
  apply (rate_limit_recovers 3 1 "203.0.113.7" 63 st).
  - vm_compute. discriminate.
  - lia.
  - vm_compute. intros e [H|[H|[H|[]]]]; subst e; discriminate.
Defined.

Lemma last_cons (A : Type) (l : list A) : forall a d : A,
  List.last (a :: l) d = List.last l a.
Proof.
  induction l as [|b l IH]; intros a d; [reflexivity|].
  change (List.last (a :: b :: l) d) with (List.last (b :: l) d).
  rewrite !IH. reflexivity.
Qed.

(** X15. When requests arrive at non-decreasing times, every log stays in
    non-decreasing order and never holds a timestamp later than the time of
    the last request served. *)
Theorem logs_stay_ordered :
  forall (hs : list hit) (st : state) (now : Z),
    logs_ordered now st ->
    StronglySorted Z.le (now :: List.map hit_time hs) ->
    logs_ordered (List.last (List.map hit_time hs) now) (fst (serve_all hs st)).
Proof.
  induction hs as [|h hs IH]; intros st now Hord Hs; [exact Hord|].
  rewrite serve_all_cons. simpl fst.
  change (List.map hit_time (h :: hs)) with (hit_time h :: List.map hit_time hs) in *.
  rewrite last_cons.
  apply StronglySorted_inv in Hs as [Hs Hall].
  apply Forall_cons in Hall as [Hnow _].
  apply IH; [|exact Hs]. unfold serve.
  apply (rate_limit_ordered _ _ _ _ _ now); assumption.
Qed.

Lemma logs_stay_ordered_witness :
  let hs := [Hit 2 1 "198.51.100.1" 5; Hit 2 1 "203.0.113.7" 5;
             Hit 2 1 "198.51.100.1" 9] in
  storage_get (fst (serve_all hs init)) "198.51.100.1" = [5; 9] /\
  logs_ordered 9 (fst (serve_all hs init)).
Proof.
  intros hs. split; [reflexivity|].
  assert (H0 : logs_ordered 0 init) by (intros c; split; constructor).
  assert (Hs : StronglySorted Z.le (0 :: List.map hit_time hs))
    by (simpl; repeat constructor; lia).
  exact (logs_stay_ordered hs init 0 H0 Hs).
Defined.

(** ** The decorated view functions *)

Import Views.

Lemma recent_idem (ws : Z) (log : list Z) :
  recent ws (recent ws log) = recent ws log.
Proof. apply recent_all. intros e He%recent_In. tauto. Qed.

Lemma limited_admit (R : Type) (m w : Z) (xff : option string) (addr : string)
    (t : Z) (inner : list security_event * outcome R) (st : state) :
  client_ip xff addr ∉ blocked_ips st ->
  in_window st (client_ip xff addr) t w < m ->
  limited m w xff addr t inner st =
    (add_request (client_ip xff addr) t
       (clean_old_requests (client_ip xff addr) (t - w * 60) st), inner).
Proof.
  intros Hb Hroom. unfold limited.
  rewrite rate_limit_admit by assumption. reflexivity.
Qed.

Lemma limited_reject (R : Type) (m w : Z) (xff : option string) (addr : string)
    (t : Z) (inner : list security_event * outcome R) (st : state) :
  client_ip xff addr ∈ blocked_ips st \/ m <= in_window st (client_ip xff addr) t w ->
  fst (snd (limited m w xff addr t inner st)) = [] /\
  (exists b, snd (snd (limited m w xff addr t inner st)) = Reply b 429) /\
  (length (storage_get (fst (limited m w xff addr t inner st)) (client_ip xff addr))
   <= length (storage_get st (client_ip xff addr)))%nat.
Proof.
  intros Hrej. unfold limited. set (c := client_ip xff addr) in *.
  pose proof (recent_length (t - w * 60) (storage_get st c)) as Hr.
  destruct (rate_limit_cases m w c t st)
    as [[Hb ->] | [(Hb & Hn & ->) | [(Hb & Hn & ->) | (Hb & Hn & _ & ->)]]].
  - simpl. split; [reflexivity|]. split; [eexists; reflexivity | lia].
  - exfalso. destruct Hrej as [H|H]; [tauto | lia].
  - simpl. split; [reflexivity|]. split; [eexists; reflexivity|].
    rewrite storage_get_clean. exact Hr.
  - simpl. split; [reflexivity|]. split; [eexists; reflexivity|].
    change (length (storage_get (clean_old_requests c (t - w * 60) st) c)
            <= length (storage_get st c))%nat.
    rewrite storage_get_clean. exact Hr.
Qed.

(** X16. The limiter runs before the symbol check: a request to
    [/company-profile] with a malformed symbol, from a client that is not
    blocked and has room, is answered 400 and still logged, so it uses up one
    of the thirty requests of the window. *)
Theorem invalid_symbol_is_counted :
  forall (R : Type) (f : gmap string pystr -> flask_request -> R)
         (xff : option string) (addr : string) (t : Z)
         (kwargs : gmap string pystr) (req : flask_request) (st : state)
         (symbol : pystr),
    client_ip xff addr ∉ blocked_ips st ->
    in_window st (client_ip xff addr) t 1 < 30 ->
    kwargs !! "symbol" = Some symbol ->
    validate_symbol (Some symbol) = false ->
    let r := get_company_profile_view f xff addr t kwargs req st in
    snd (snd r) = Reply [("error", JStr (lit "Invalid symbol format"))] 400 /\
    storage_get (fst r) (client_ip xff addr)
      = recent (t - 1 * 60) (storage_get st (client_ip xff addr)) ++ [t] /\
    in_window (fst r) (client_ip xff addr) t 1
      = in_window st (client_ip xff addr) t 1 + 1.
Proof.
  intros R f xff addr t kwargs req st symbol Hb Hroom Hk Hbad r.
  unfold r, get_company_profile_view. rewrite limited_admit by assumption.
  cbn [fst snd].
  assert (Hlog : storage_get
                   (add_request (client_ip xff addr) t
                      (clean_old_requests (client_ip xff addr) (t - 1 * 60) st))
                   (client_ip xff addr)
                 = recent (t - 1 * 60) (storage_get st (client_ip xff addr)) ++ [t]).
  { rewrite storage_get_add, storage_get_clean. reflexivity. }
  split; [|split; [exact Hlog|]].
  - unfold validate_symbol_input. unfold pystr in *. rewrite Hk, Hbad. reflexivity.
  - unfold in_window. rewrite Hlog, recent_app, recent_idem. simpl.
    replace (t >? t - 1 * 60) with true
      by (symmetry; rewrite Z.gtb_ltb; apply Z.ltb_lt; lia).
    rewrite length_app. simpl. lia.
Qed.

Lemma invalid_symbol_is_counted_witness :
  let kwargs : gmap string pystr := {[ "symbol"%string := lit "AAPL.US" ]} in
  let r := get_company_profile_view (fun _ _ => tt) None "203.0.113.7" 100
             kwargs (FlaskRequest false ∅ ∅) init in
  snd (snd r) = Reply [("error", JStr (lit "Invalid symbol format"))] 400 /\
  storage_get (fst r) "203.0.113.7" = [100].
Proof.
  intros kwargs r.
  destruct (invalid_symbol_is_counted unit (fun _ _ => tt) None "203.0.113.7" 100
              kwargs (FlaskRequest false ∅ ∅) init (lit "AAPL.US"))
    as (H1 & H2 & _).
  - vm_compute. discriminate.
  - vm_compute. reflexivity.
  - reflexivity.
  - reflexivity.
  - split; [exact H1 | exact H2].
Defined.

(** X17. A request to [/search-company] from a blocked client, or from one
    with twenty requests in the window, is answered 429 before the field is
    looked at: nothing is logged as a security event, the wrapped function is
    not called and the log of the client does not grow. *)
Theorem limited_request_is_not_scanned :
  forall (lower : pystr -> pystr) (word_class : char -> bool)
         (py_str : jvalue -> pystr) (R : Type)
         (f : request_body -> R) (xff : option string) (addr : string) (t : Z)
         (req : request_body) (st : state),
    client_ip xff addr ∈ blocked_ips st \/ 20 <= in_window st (client_ip xff addr) t 1 ->
    let r := search_company_view lower word_class py_str f xff addr t req st in
    (exists b, snd r = Returned ([], Reply b 429)) /\
    (length (storage_get (fst r) (client_ip xff addr))
     <= length (storage_get st (client_ip xff addr)))%nat.
Proof.
  intros lower word_class py_str R f xff addr t req st Hrej r.
  unfold r, search_company_view. set (c := client_ip xff addr) in *.
  pose proof (recent_length (t - 1 * 60) (storage_get st c)) as Hr.
  destruct (rate_limit_cases 20 1 c t st)
    as [[Hb ->] | [(Hb & Hn & ->) | [(Hb & Hn & ->) | (Hb & Hn & _ & ->)]]].
  - simpl. split; [eexists; reflexivity | lia].
  - exfalso. destruct Hrej as [H|H]; [tauto | lia].
  - simpl. split; [eexists; reflexivity|]. rewrite storage_get_clean. exact Hr.
  - simpl. split; [eexists; reflexivity|].
    change (length (storage_get (clean_old_requests c (t - 1 * 60) st) c)
            <= length (storage_get st c))%nat.
    rewrite storage_get_clean. exact Hr.
Qed.

Lemma limited_request_is_not_scanned_witness :
  let st := block_ip "203.0.113.7" init in
  let r := search_company_view AsciiTables.lower AsciiTables.word_class
             AsciiTables.py_str AsciiTables.read_query None "203.0.113.7" 100
             (AsciiTables.json_request "query" "<script>") st in
  snd r = Returned ([], Reply [("error", JStr (lit "IP blocked due to abuse"))] 429).
Proof.
  intros st r.
  destruct (limited_request_is_not_scanned AsciiTables.lower AsciiTables.word_class
              AsciiTables.py_str (option jvalue) AsciiTables.read_query None
              "203.0.113.7" 100 (AsciiTables.json_request "query" "<script>") st)
    as ([b Hb] & _).
  - left. vm_compute. reflexivity.
  - reflexivity.
Defined.

(** X18. The client is whoever the [X-Forwarded-For] header names: a
    request carrying a header value that is not blocked and has room is
    admitted and logged under that value, whatever its socket address is,
    blocked or not, and the log of the socket address is not touched. *)
Theorem forwarded_header_names_the_client :
  forall (R : Type) (m w : Z) (header addr : string) (t : Z)
         (inner : list security_event * outcome R) (st : state),
    header ∉ blocked_ips st ->
    in_window st header t w < m ->
    header <> addr ->
    snd (limited m w (Some header) addr t inner st) = inner /\
    storage_get (fst (limited m w (Some header) addr t inner st)) header
      = recent (t - w * 60) (storage_get st header) ++ [t] /\
    storage_get (fst (limited m w (Some header) addr t inner st)) addr
      = storage_get st addr /\
    (addr ∈ blocked_ips (fst (limited m w (Some header) addr t inner st))
     <-> addr ∈ blocked_ips st).
Proof.
  intros R m w header addr t inner st Hb Hroom Hne.
  rewrite (limited_admit R m w (Some header) addr t inner st) by assumption.
  cbn [fst snd client_ip default]. unfold client_ip. simpl default.
  split; [reflexivity|]. split; [|split].
  - rewrite storage_get_add, storage_get_clean. reflexivity.
  - rewrite storage_get_add_ne, storage_get_clean_ne by exact Hne. reflexivity.
  - reflexivity.
Qed.

Lemma forwarded_header_names_the_client_witness :
  let st := block_ip "203.0.113.7" init in
  snd (limited 5 1 None "203.0.113.7" 100 ([], Call tt) st)
    = ([], Reply [("error", JStr (lit "IP blocked due to abuse"))] 429) /\
  snd (limited 5 1 (Some "10.9.8.7"%string) "203.0.113.7" 100 ([], Call tt) st)
    = ([], Call tt).
Proof.
  intros st. split; [reflexivity|].
  apply (forwarded_header_names_the_client unit 5 1 "10.9.8.7" "203.0.113.7" 100
           ([], Call tt) st).
  - vm_compute. discriminate.
  - vm_compute. reflexivity.
  - discriminate.
Defined.

Lemma append_safe_map (companies : list company) : forall acc,
  append_safe companies acc = acc ++ List.map make_safe_company companies.
Proof.
  induction companies as [|c cs IH]; intros acc; simpl.
  - rewrite app_nil_r. reflexivity.
  - rewrite IH, <- app_assoc. reflexivity.
Qed.

(** X19. The list [search_company] returns holds the first ten companies
    of the upstream answer, in their order, each rebuilt from sanitized
    fields: the symbol and the currency have at most 10 characters, the
    exchange short name at most 20, the name at most 200 and the exchange at
    most 50; none holds a control character, and the first three hold none of
    the special characters. *)
Theorem safe_companies_bounded :
  forall companies : list company,
    safe_companies companies = List.map make_safe_company (firstn 10 companies) /\
    length (safe_companies companies) = Nat.min 10 (length companies) /\
    forall sc, In sc (safe_companies companies) ->
      len (sc_symbol sc) <= 10 /\ len (sc_currency sc) <= 10 /\
      len (sc_exchangeShortName sc) <= 20 /\
      len (sc_name sc) <= 200 /\ len (sc_stockExchange sc) <= 50 /\
      tidy (sc_symbol sc) /\ tidy (sc_name sc) /\ tidy (sc_currency sc) /\
      tidy (sc_stockExchange sc) /\ tidy (sc_exchangeShortName sc) /\
      (forall c, In c special_chars ->
         ~ In c (sc_symbol sc) /\ ~ In c (sc_currency sc) /\
         ~ In c (sc_exchangeShortName sc)).
Proof.
  intros companies.
  assert (Hmap : safe_companies companies
                 = List.map make_safe_company (firstn 10 companies)).
  { unfold safe_companies. rewrite append_safe_map. reflexivity. }
  assert (Htidy : forall raw n flag, tidy (validate_input raw n flag)).
  { intros raw n flag. split;
      [intros c; apply validate_input_no_control | apply validate_input_stripped]. }
  split; [exact Hmap|]. split.
  - rewrite Hmap, length_map, length_firstn. reflexivity.
  - intros sc Hsc. rewrite Hmap in Hsc. apply in_map_iff in Hsc as (c & <- & _).
    simpl.
    repeat (split; [first [apply validate_input_length; lia | apply Htidy]|]).
    intros ch Hch. repeat split; apply validate_input_no_special, Hch.
Qed.

(** ** The sliding window *)

Section SlidingWindow.

Implicit Types (st : state) (c : string) (A log : list Z) (t T ws m w : Z).

Lemma recent_recent ws ws' log :
  ws <= ws' -> recent ws' (recent ws log) = recent ws' log.
Proof.
  intros Hle. induction log as [|e log IH]; simpl; [reflexivity|].
  destruct (e >? ws) eqn:E; simpl; rewrite IH; [reflexivity|].
  rewrite Z.gtb_ltb in E. apply Z.ltb_ge in E.
  replace (e >? ws') with false
    by (symmetry; rewrite Z.gtb_ltb; apply Z.ltb_ge; lia).
  reflexivity.
Qed.

Lemma count_in_app lo hi A B :
  count_in lo hi (A ++ B) = (count_in lo hi A + count_in lo hi B)%nat.
Proof. unfold count_in. rewrite List.filter_app, length_app. reflexivity. Qed.

Lemma count_in_recent lo hi A : (count_in lo hi A <= length (recent lo A))%nat.
Proof.
  unfold count_in. induction A as [|e A IH]; simpl; [lia|].
  rewrite Z.gtb_ltb. destruct (lo <? e); simpl; [|exact IH].
  destruct (e <=? hi); simpl; lia.
Qed.

Lemma count_in_later lo hi t : hi < t -> count_in lo hi [t] = 0%nat.
Proof.
  intros H. unfold count_in. simpl.
  replace (t <=? hi) with false by (symmetry; apply Z.leb_gt; exact H).
  rewrite andb_false_r. reflexivity.
Qed.

Lemma count_in_one lo hi t : (count_in lo hi [t] <= 1)%nat.
Proof. unfold count_in. simpl. destruct (_ && _); simpl; lia. Qed.

Lemma window_step m w c t st A T :
  0 < m -> T <= t -> window_invariant m w c st A T ->
  (snd (rate_limit m w c t st) = Call tt /\
   window_invariant m w c (fst (rate_limit m w c t st)) (A ++ [t]) t)
  \/
  ((exists b status, snd (rate_limit m w c t st) = Reply b status) /\
   window_invariant m w c (fst (rate_limit m w c t st)) A t).
Proof.
  intros Hm HT (Hb & Hlen & Hrec & Hle & HP).
  set (ws := t - w * 60).
  assert (Hpr : recent ws (storage_get st c) = recent ws A)
    by (apply Hrec; unfold ws; lia).
  pose proof (recent_length ws (storage_get st c)) as Hrl.
  assert (Hle' : Forall (fun a => a <= t) A).
  { eapply Forall_impl; [exact Hle|]. intros a Ha. simpl in Ha. lia. }
  destruct (Z_lt_le_dec (Z.of_nat (length (recent ws (storage_get st c)))) m)
    as [Hlt | Hge].
  - left. unfold ws in *. rewrite rate_limit_admit by assumption.
    split; [reflexivity|]. cbn [fst]. fold ws in Hpr, Hlt, Hrl |- *.
    assert (Hlog : storage_get (add_request c t (clean_old_requests c ws st)) c
                   = recent ws (storage_get st c) ++ [t])
      by (rewrite storage_get_add, storage_get_clean; reflexivity).
    split; [exact Hb|]. split; [rewrite Hlog, length_app; simpl; lia|].
    split; [|split].
    + intros ws' Hws'. rewrite Hlog, !recent_app, Hpr.
      rewrite recent_recent by exact Hws'. reflexivity.
    + apply Forall_app. split; [exact Hle'|]. constructor; [lia | constructor].
    + intros a Ha. rewrite count_in_app.
      destruct (Z.eq_dec a t) as [-> | Hne].
      * pose proof (count_in_recent ws t A) as H1.
        pose proof (count_in_one ws t t) as H2.
        rewrite Hpr in Hlt. fold ws. lia.
      * apply in_app_or in Ha as [Ha | [<- | []]]; [|congruence].
        rewrite Forall_forall in Hle'.
        pose proof (Hle' a (proj2 (list_elem_of_In _ _) Ha)) as Hat. simpl in Hat.
        rewrite count_in_later by lia. specialize (HP a Ha). lia.
  - right. unfold ws in *.
    rewrite rate_limit_limited by (try assumption; lia).
    split; [eexists _, _; reflexivity|]. cbn [fst]. fold ws in Hpr, Hge, Hrl |- *.
    split; [exact Hb|]. rewrite storage_get_clean.
    split; [lia|]. split; [|split; [exact Hle' | exact HP]].
    intros ws' Hws'. rewrite Hpr. apply recent_recent. exact Hws'.
Qed.

Lemma window_run m w c ts : forall st A T,
  0 < m -> window_invariant m w c st A T ->
  StronglySorted Z.le (T :: ts) ->
  exists T',
    window_invariant m w c (fst (serve_all (List.map (Hit m w c) ts) st))
      (A ++ admitted ts (snd (serve_all (List.map (Hit m w c) ts) st))) T'.
Proof.
  induction ts as [|t ts IH]; intros st A T Hm Hinv Hs.
  - exists T. simpl. rewrite app_nil_r. exact Hinv.
  - change (List.map (Hit m w c) (t :: ts))
      with (Hit m w c t :: List.map (Hit m w c) ts).
    rewrite serve_all_cons. unfold serve. cbn [hit_max_requests hit_window_minutes
      hit_client hit_time fst snd].
    apply StronglySorted_inv in Hs as [Hs Hall].
    apply Forall_cons in Hall as [HT _].
    destruct (window_step m w c t st A T Hm HT Hinv)
      as [[Ho Hinv'] | [(b & status & Ho) Hinv']]; rewrite Ho; cbn [admitted].
    + destruct (IH _ _ _ Hm Hinv' Hs) as [T' H]. exists T'.
      rewrite <- app_assoc in H. exact H.
    + exact (IH _ _ _ Hm Hinv' Hs).
Qed.

End SlidingWindow.

(** X20. The limit holds: when one client sends requests at non-decreasing
    times under one policy with a positive limit, starting with an empty log
    and not blocked, then every window of [window_minutes] that ends at an
    admitted request holds at most [max_requests] admitted requests. *)
Theorem admitted_requests_respect_limit :
  forall (m w : Z) (c : string) (ts : list Z) (st : state) (a : Z),
    0 < m -> storage_get st c = [] -> c ∉ blocked_ips st ->
    StronglySorted Z.le ts ->
    let A := admitted ts (snd (serve_all (List.map (Hit m w c) ts) st)) in
    In a A -> Z.of_nat (count_in (a - w * 60) a A) <= m.
Proof.
  intros m w c ts st a Hm Hlog Hb Hs A Ha.
  destruct ts as [|t0 ts]; [destruct Ha|].
  assert (Hinv : window_invariant m w c st [] t0).
  { split; [exact Hb|]. split; [rewrite Hlog; simpl; lia|].
    split; [intros ws _; rewrite Hlog; reflexivity|].
    split; [constructor | intros x []]. }
  assert (Hs' : StronglySorted Z.le (t0 :: t0 :: ts)).
  { constructor; [exact Hs|]. constructor; [lia|].
    apply StronglySorted_inv in Hs as [_ Hall]. exact Hall. }
  destruct (window_run m w c (t0 :: ts) st [] t0 Hm Hinv Hs')
    as (T' & _ & _ & _ & _ & HP).
  apply HP. exact Ha.
Qed.

Lemma admitted_requests_respect_limit_witness :
  let ts := [0; 10; 20; 59; 60; 61; 70; 130] in
  let A := admitted ts (snd (serve_all (List.map (Hit 2 1 "203.0.113.7") ts) init)) in
  A = [0; 10; 60; 70; 130] /\ Z.of_nat (count_in (70 - 1 * 60) 70 A) <= 2.
Proof.
  intros ts A. split; [reflexivity|].
  apply (admitted_requests_respect_limit 2 1 "203.0.113.7" ts init 70).
  - lia.
  - reflexivity.
  - vm_compute. discriminate.
  - unfold ts. repeat constructor; lia.
  - vm_compute. tauto.
Defined.


